(** * Propositional formulas: syntax, parsing and printing

    A shallow embedding of [propositions/syntax.py]: the four symbol
    classifiers, the [Formula] class with its constructor, [__repr__],
    [__eq__], [variables], [operators], the recursive-descent parser
    [_parse_prefix] with [is_formula] and [parse], the Polish-notation printer
    and parser, and the two substitution methods.

    Conventions of the embedding.
    - A Python [str] is a [string]; a character is an [ascii], that is a code
      point below 256.  On that range [str.isdecimal] holds exactly of the
      digits [0] to [9].
    - The decorators [lru_cache], [memoized_parameterless_method] and
      [frozen] only cache results and forbid assignment after construction;
      the functions under them are embedded as they are written.
    - A Python call either returns a value or raises: [result A] is [Ok a] or
      [Raise e].  [OutOfFuel] is not a Python exception; it marks the
      exhaustion of the recursion budget of the two functions whose recursion
      is not structural, and is proved unreachable.
    - A [Formula] object is a [Node] holding [root] and the attributes [now]
      and [next], [None] when [__init__] did not set them; reading an
      attribute that was not set raises [AttributeError].
    - The interpreter's recursion limit is not part of the embedding: the
      recursive methods are followed to any depth, and the statements below
      are about the calls that return. *)

From Stdlib Require Import String Ascii List Arith Lia Bool.
From stdpp Require Import gmap strings.
Import ListNotations.
Open Scope string_scope.

#[local] Arguments String.append !s1 s2.

(** ** Exceptions and the error monad *)

Inductive exn : Type :=
| IndexError
| AssertionError
| AttributeError
| ValueError (msg : string)
| OutOfFuel.

Inductive result (A : Type) : Type :=
| Ok (a : A)
| Raise (e : exn).

Arguments Ok {A} a.
Arguments Raise {A} e.

Definition bind {A B : Type} (m : result A) (k : A -> result B) : result B :=
  match m with
  | Ok a => k a
  | Raise e => Raise e
  end.

Notation "x <- m ;; k" := (bind m (fun x => k))
  (at level 100, m at next level, k at level 200, right associativity).

(** Python's [a or b] on a total [a] and a fallible [b]: [b] is evaluated only
    when [a] is false. *)
Definition or_else (a : bool) (b : result bool) : result bool :=
  if a then Ok true else b.

(** ** Characters and slices *)

(** ['p' <= c <= 'z'] *)
Definition p_to_z (c : ascii) : bool :=
  (Ascii.leb "p" c && Ascii.leb c "z")%char.

(** [c.isdecimal()] for a single character. *)
Definition isdecimal_char (c : ascii) : bool :=
  (Ascii.leb "0" c && Ascii.leb c "9")%char.

Fixpoint all_decimal (s : string) : bool :=
  match s with
  | "" => true
  | String c s' => isdecimal_char c && all_decimal s'
  end.

(** [s.isdecimal()]: every character is a decimal and there is at least one. *)
Definition isdecimal (s : string) : bool :=
  match s with
  | "" => false
  | String _ _ => all_decimal s
  end.

(** [s[:n]] *)
Fixpoint slice_to (n : nat) (s : string) : string :=
  match n, s with
  | S n', String c s' => String c (slice_to n' s')
  | _, _ => ""
  end.

(** [s[n:]] *)
Fixpoint slice_from (n : nat) (s : string) : string :=
  match n, s with
  | S n', String _ s' => slice_from n' s'
  | _, _ => s
  end.

(** [s.startswith(p)] *)
Fixpoint startswith (s p : string) {struct p} : bool :=
  match p with
  | "" => true
  | String x p' =>
      match s with
      | "" => false
      | String c s' => Ascii.eqb c x && startswith s' p'
      end
  end.

(** The loop [while num < len(string) and string[num].isdecimal(): num += 1]
    started at index [num]: the index it stops at. *)
Fixpoint scan_decimal (string : string) (num : nat) : nat :=
  match num, string with
  | S n', String _ s' => S (scan_decimal s' n')
  | S _, "" => num
  | O, String c s' => if isdecimal_char c then S (scan_decimal s' O) else O
  | O, "" => O
  end.

(** ** The symbol classifiers *)

Definition is_variable (string : string) : result bool :=
  match string with
  | "" => Raise IndexError
  | String c0 tail =>
      Ok (Ascii.leb "p" c0 && Ascii.leb c0 "z"
          && ((String.length string =? 1)%nat || isdecimal tail))
  end.

Definition is_constant (string : string) : bool :=
  String.eqb string "T" || String.eqb string "F".

Definition is_unary (string : string) : bool :=
  String.eqb string "~".

Definition is_binary (string : string) : bool :=
  String.eqb string "&" || String.eqb string "|" || String.eqb string "->".

(** ** The class [Formula] *)

#[local] Set Warnings "-register-all".

Inductive Formula : Type :=
| Node (root : string) (now next : option Formula).

Definition is_None {A : Type} (o : option A) : bool :=
  match o with None => true | Some _ => false end.

Definition __init__ (root : string) (now next : option Formula) : result Formula :=
  v <- is_variable root ;;
  if v || is_constant root then
    if is_None now && is_None next then Ok (Node root None None)
    else Raise AssertionError
  else if is_unary root then
    match now, next with
    | Some _, None => Ok (Node root now None)
    | _, _ => Raise AssertionError
    end
  else
    if negb (is_binary root) then Raise AssertionError
    else
      match now, next with
      | Some _, Some _ => Ok (Node root now next)
      | _, _ => Raise AssertionError
      end.

Fixpoint __repr__ (self : Formula) : result string :=
  match self with
  | Node root now next =>
      if is_unary root then
        match now with
        | Some a => sa <- __repr__ a ;; Ok (root ++ sa)
        | None => Raise AttributeError
        end
      else
        c <- or_else (is_constant root) (is_variable root) ;;
        if c then Ok root
        else
          match now with
          | Some a =>
              sa <- __repr__ a ;;
              match next with
              | Some b => sb <- __repr__ b ;; Ok ("(" ++ sa ++ root ++ sb ++ ")")
              | None => Raise AttributeError
              end
          | None => Raise AttributeError
          end
  end.

(** [str(f)] is [repr(f)]: the class defines no [__str__]. *)
Definition str (f : Formula) : result string := __repr__ f.

Definition __eq__ (self other : Formula) : result bool :=
  a <- str self ;; b <- str other ;; Ok (String.eqb a b).

Definition __ne__ (self other : Formula) : result bool :=
  e <- __eq__ self other ;; Ok (negb e).

Section Hash.

(** Python's [hash] on strings, left abstract. *)
Variable hash : string -> Z.

Definition __hash__ (self : Formula) : result Z :=
  s <- str self ;; Ok (hash s).

End Hash.

Fixpoint variables (self : Formula) : result (gset string) :=
  match self with
  | Node root now next =>
      if is_constant root then Ok ∅
      else
        v <- is_variable root ;;
        if v then Ok {[ root ]}
        else if is_unary root then
          match now with
          | Some a => variables a
          | None => Raise AttributeError
          end
        else
          match now with
          | Some a =>
              va <- variables a ;;
              match next with
              | Some b => vb <- variables b ;; Ok (va ∪ vb)
              | None => Raise AttributeError
              end
          | None => Raise AttributeError
          end
  end.

Fixpoint operators (self : Formula) : result (gset string) :=
  match self with
  | Node root now next =>
      v <- is_variable root ;;
      if v then Ok ∅
      else if is_constant root then Ok {[ root ]}
      else if is_unary root then
        match now with
        | Some a => oa <- operators a ;; Ok ({[ root ]} ∪ oa)
        | None => Raise AttributeError
        end
      else
        match now with
        | Some a =>
            oa <- operators a ;;
            match next with
            | Some b => ob <- operators b ;; Ok ({[ root ]} ∪ oa ∪ ob)
            | None => Raise AttributeError
            end
        | None => Raise AttributeError
        end
  end.

(** ** The recursive-descent parser *)

(** The loop over the operator candidates of [_parse_prefix]: the first
    candidate [i] with [ost.startswith(i)], together with [ost[len(i):]]. *)
Definition candidates : list string :=
  ["<->"; "-&"; "->"; "-|"; "&"; "|"; "+"].

Fixpoint first_candidate (l : list string) (ost : string)
  : option (string * string) :=
  match l with
  | [] => None
  | i :: l' =>
      if startswith ost i then Some (i, slice_from (String.length i) ost)
      else first_candidate l' ost
  end.

Definition parsed : Type := option Formula * string.

(** The body of [_parse_prefix], its recursive calls made through [rec]. *)
Definition parse_prefix_body (rec : string -> result parsed) (string : string)
  : result parsed :=
  match string with
  | "" => Ok (None, "End of input")
  | String sym tail =>
      if is_constant (String sym "") then
        f <- __init__ (String sym "") None None ;; Ok (Some f, tail)
      else if Ascii.eqb sym "(" then
        r1 <- rec tail ;;
        match r1 with
        | (None, ost) => Ok (None, ost)
        | (Some now, ost) =>
            if String.eqb ost "" then Ok (None, "Missing operator")
            else
              match first_candidate candidates ost with
              | None => Ok (None, "Invalid operator")
              | Some (chr, ost) =>
                  if negb (is_binary chr) then Ok (None, "Invalid operator")
                  else
                    r2 <- rec ost ;;
                    match r2 with
                    | (None, ost) => Ok (None, ost)
                    | (Some next, ost) =>
                        match ost with
                        | "" => Ok (None, "Not closed")
                        | String c ost' =>
                            if negb (Ascii.eqb c ")") then Ok (None, "Not closed")
                            else
                              f <- __init__ chr (Some now) (Some next) ;;
                              Ok (Some f, ost')
                        end
                    end
              end
        end
      else if Ascii.eqb sym "~" then
        r <- rec tail ;;
        match r with
        | (None, ost) => Ok (None, ost)
        | (Some leaf, ost) => f <- __init__ "~" (Some leaf) None ;; Ok (Some f, ost)
        end
      else if p_to_z sym then
        let num := scan_decimal string 1 in
        let res := slice_to num string in
        v <- is_variable res ;;
        if negb v then Ok (None, "Invalid")
        else f <- __init__ res None None ;; Ok (Some f, slice_from num string)
      else Ok (None, "Invalid pref")
  end.

Fixpoint parse_prefix_fuel (fuel : nat) (string : string) : result parsed :=
  match fuel with
  | O => Raise OutOfFuel
  | S fuel' => parse_prefix_body (parse_prefix_fuel fuel') string
  end.

(** Every recursive call is on a strictly shorter string, so a budget of one
    more than the length is enough ([parse_prefix_unfold] below). *)
Definition _parse_prefix (string : string) : result parsed :=
  parse_prefix_fuel (S (String.length string)) string.

Definition is_formula (string : string) : result bool :=
  r <- _parse_prefix string ;;
  let (formula, ost) := r in
  let fl := negb (is_None formula) && String.eqb ost "" in
  Ok fl.

Definition parse (string : string) : result Formula :=
  a <- is_formula string ;;
  if negb a then Raise AssertionError
  else
    r <- _parse_prefix string ;;
    let (formula, ost) := r in
    match formula with
    | Some f => if String.eqb ost "" then Ok f else Raise AssertionError
    | None => Raise AssertionError
    end.

(** ** Polish notation *)

Fixpoint polish (self : Formula) : result string :=
  match self with
  | Node root now next =>
      c <- or_else (is_constant root) (is_variable root) ;;
      if c then Ok root
      else if is_unary root then
        match now with
        | Some a => sa <- polish a ;; Ok (root ++ sa)
        | None => Raise AttributeError
        end
      else
        match now with
        | Some a =>
            sa <- polish a ;;
            match next with
            | Some b => sb <- polish b ;; Ok (root ++ sa ++ sb)
            | None => Raise AttributeError
            end
        | None => Raise AttributeError
        end
  end.

(** The first loop of [parse_polish].  The index [i] is represented by the
    suffix [string[i:]] still to be scanned, and the list [res] by the tokens
    the loop appends from there on; the recursive call stands for [continue]. *)
Definition tokenize_body (rec : string -> result (list string)) (string : string)
  : result (list String.string) :=
  match string with
  | "" => Ok []
  | String symb tail =>
      if Ascii.eqb symb "T" || Ascii.eqb symb "F" then
        res <- rec tail ;; Ok (String symb "" :: res)
      else if Ascii.eqb symb "~" then
        res <- rec tail ;; Ok ("~" :: res)
      else if Ascii.eqb symb "&" || Ascii.eqb symb "|" || Ascii.eqb symb "+" then
        res <- rec tail ;; Ok (String symb "" :: res)
      else if startswith string "<->" then
        res <- rec (slice_from 3 string) ;; Ok ("<->" :: res)
      else if startswith string "->" then
        res <- rec (slice_from 2 string) ;; Ok ("->" :: res)
      else if startswith string "-&" then
        res <- rec (slice_from 2 string) ;; Ok ("-&" :: res)
      else if startswith string "-|" then
        res <- rec (slice_from 2 string) ;; Ok ("-|" :: res)
      else if p_to_z symb then
        let next := scan_decimal string 1 in
        let leaf := slice_to next string in
        v <- is_variable leaf ;;
        if negb v then Raise (ValueError "Invalid variable")
        else res <- rec (slice_from next string) ;; Ok (leaf :: res)
      else Raise (ValueError "Invalid symbol")
  end.

Fixpoint tokenize_fuel (fuel : nat) (string : string)
  : result (list String.string) :=
  match fuel with
  | O => Raise OutOfFuel
  | S fuel' => tokenize_body (tokenize_fuel fuel') string
  end.

(** Every iteration consumes at least one character. *)
Definition tokenize (string : string) : result (list String.string) :=
  tokenize_fuel (S (String.length string)) string.

(** One iteration of the second loop.  [res_string] is used as a stack, by
    [append] and [pop] at its end: its last element is the head of the list. *)
Definition reduce_step (res_string : list Formula) (el : string)
  : result (list Formula) :=
  c <- or_else (is_constant el) (is_variable el) ;;
  if c then f <- __init__ el None None ;; Ok (f :: res_string)
  else if is_binary el then
    match res_string with
    | now :: next :: rest =>
        f <- __init__ el (Some now) (Some next) ;; Ok (f :: rest)
    | _ => Raise (ValueError "Invalid")
    end
  else if is_unary el then
    match res_string with
    | leaf :: rest => f <- __init__ el (Some leaf) None ;; Ok (f :: rest)
    | [] => Raise (ValueError "Invalid")
    end
  else Raise (ValueError "Invalid").

Fixpoint reduce (els : list string) (res_string : list Formula)
  : result (list Formula) :=
  match els with
  | [] => Ok res_string
  | el :: els' => st <- reduce_step res_string el ;; reduce els' st
  end.

Definition parse_polish (string : string) : result Formula :=
  res <- tokenize string ;;
  res_string <- reduce (rev res) [] ;;
  match res_string with
  | [f] => Ok f
  | _ => Raise (ValueError "Invalid")
  end.

(** ** Substitution

    A [Mapping[str, Formula]] is the list of its items in iteration order.
    Both methods end after their assertions, so they return Python's [None]:
    the result type is [option Formula]. *)

Definition mapping : Type := list (string * Formula).

Fixpoint assert_variables (keys : list string) : result unit :=
  match keys with
  | [] => Ok tt
  | variable :: keys' =>
      v <- is_variable variable ;;
      if v then assert_variables keys' else Raise AssertionError
  end.

Definition substitute_variables (self : Formula) (substitution_map : mapping)
  : result (option Formula) :=
  _ <- assert_variables (map fst substitution_map) ;;
  Ok None.

Fixpoint assert_operators (items : mapping) : result unit :=
  match items with
  | [] => Ok tt
  | (operator, template) :: items' =>
      if is_constant operator || is_unary operator || is_binary operator then
        vs <- variables template ;;
        if bool_decide (vs ⊆ {[ "p"; "q" ]}) then assert_operators items'
        else Raise AssertionError
      else Raise AssertionError
  end.

Definition substitute_operators (self : Formula) (substitution_map : mapping)
  : result (option Formula) :=
  _ <- assert_operators substitution_map ;;
  Ok None.

(** ** Trees of the grammar

    [grammar ops f]: the leaves of [f] are constants and variables, its unary
    nodes carry [~] and one operand, its binary nodes carry an operator
    accepted by [ops] and two operands. *)

Inductive grammar (ops : string -> bool) : Formula -> Prop :=
| grammar_atom r :
    or_else (is_constant r) (is_variable r) = Ok true ->
    grammar ops (Node r None None)
| grammar_unary r a :
    is_unary r = true -> grammar ops a ->
    grammar ops (Node r (Some a) None)
| grammar_binary r a b :
    ops r = true -> grammar ops a -> grammar ops b ->
    grammar ops (Node r (Some a) (Some b)).

(** The objects that calls of the constructor can produce. *)
Inductive built : Formula -> Prop :=
| built_init r a b f :
    (forall g, a = Some g -> built g) ->
    (forall g, b = Some g -> built g) ->
    __init__ r a b = Ok f ->
    built f.

Definition is_candidate (r : string) : bool :=
  existsb (String.eqb r) candidates.

(** Whether some binary node of the tree carries an operator outside
    [is_binary]. *)
Fixpoint uses_extended (f : Formula) : bool :=
  match f with
  | Node r a b =>
      match a with
      | Some fa =>
          uses_extended fa ||
          match b with
          | Some fb => negb (is_binary r) || uses_extended fb
          | None => false
          end
      | None => false
      end
  end.

(** Decidable counterpart of [grammar]. *)
Fixpoint grammarb (ops : string -> bool) (f : Formula) : bool :=
  match f with
  | Node r None None =>
      match or_else (is_constant r) (is_variable r) with
      | Ok true => true
      | _ => false
      end
  | Node r (Some a) None => is_unary r && grammarb ops a
  | Node r (Some a) (Some b) => ops r && grammarb ops a && grammarb ops b
  | Node _ None (Some _) => false
  end.

(** The text [__repr__] computes on a tree of the grammar. *)
Fixpoint to_string (f : Formula) : string :=
  match f with
  | Node r None _ => r
  | Node r (Some a) None => r ++ to_string a
  | Node r (Some a) (Some b) => "(" ++ to_string a ++ r ++ to_string b ++ ")"
  end.

(** The text [polish] computes on a tree of the grammar, and its tokens. *)
Fixpoint to_polish (f : Formula) : string :=
  match f with
  | Node r None _ => r
  | Node r (Some a) None => r ++ to_polish a
  | Node r (Some a) (Some b) => r ++ to_polish a ++ to_polish b
  end.

Fixpoint tokens (f : Formula) : list string :=
  match f with
  | Node r None _ => [r]
  | Node r (Some a) None => r :: tokens a
  | Node r (Some a) (Some b) => r :: tokens a ++ tokens b
  end.

Definition no_digit_start (s : string) : bool :=
  match s with
  | "" => true
  | String c _ => negb (isdecimal_char c)
  end.

(** Formulas of the examples. *)
Definition leaf (r : string) : Formula := Node r None None.
Definition unary (r : string) (a : Formula) : Formula := Node r (Some a) None.
Definition binary (r : string) (a b : Formula) : Formula :=
  Node r (Some a) (Some b).

Definition ex_p_and_q : Formula := binary "&" (leaf "p") (leaf "q").
Definition ex_not_p_or_q : Formula :=
  unary "~" (binary "|" (leaf "p") (leaf "q")).
Definition ex_x_and_y_and_not_z : Formula :=
  binary "&" (binary "&" (leaf "x") (leaf "y")) (unary "~" (leaf "z")).
Definition ex_p_iff_q : Formula := binary "<->" (leaf "p") (leaf "q").

(** ** Notions used by the statements *)

(** The roots of leaves: a constant or a variable name. *)
Definition atom (r : string) : Prop :=
  or_else (is_constant r) (is_variable r) = Ok true.

(** A successful call of the parser leaves a strictly shorter string. *)
Definition shrinks (s : string) (r : result parsed) : Prop :=
  forall f rest, r = Ok (Some f, rest) -> String.length rest < String.length s.

(** The text of [f] is parsed back to [f] before anything that does not start
    with a digit. *)
Definition reparses (f : Formula) : Prop :=
  forall rest, no_digit_start rest = true ->
    _parse_prefix (to_string f ++ rest) = Ok (Some f, rest).

(** The tokenizer either splits its input into tokens or reports an invalid
    symbol. *)
Definition join (l : list string) : string := fold_right String.append "" l.

Definition token (t : string) : Prop :=
  atom t \/ t = "~" \/ is_candidate t = true.

Definition tokenized (s : string) (r : result (list string)) : Prop :=
  (exists toks, r = Ok toks /\ join toks = s /\ Forall token toks) \/
  r = Raise (ValueError "Invalid symbol").

(** The tokens of the trees on the stack, from its top. *)
Definition flat (st : list Formula) : list string := concat (map tokens st).

(** The characters that occur in some token. *)
Definition recognized (c : ascii) : bool :=
  Ascii.eqb c "T" || Ascii.eqb c "F" || Ascii.eqb c "~" || Ascii.eqb c "&"
  || Ascii.eqb c "|" || Ascii.eqb c "+" || Ascii.eqb c "<" || Ascii.eqb c "-"
  || Ascii.eqb c ">" || p_to_z c || isdecimal_char c.

Fixpoint all_chars (P : ascii -> bool) (s : string) : bool :=
  match s with
  | "" => true
  | String c s' => P c && all_chars P s'
  end.

(** * Properties *)

(** ** Strings *)

Lemma app_assoc_s (a b c : string) : (a ++ b) ++ c = a ++ (b ++ c).
Proof. induction a as [|x a IH]; cbn; [reflexivity | now rewrite IH]. Qed.

Lemma app_nil_r_s (a : string) : a ++ "" = a.
Proof. induction a as [|x a IH]; cbn; [reflexivity | now rewrite IH]. Qed.

Lemma length_app_s (a b : string) :
  String.length (a ++ b) = String.length a + String.length b.
Proof. induction a as [|x a IH]; cbn; [reflexivity | now rewrite IH]. Qed.

Lemma slice_from_app (a b : string) : slice_from (String.length a) (a ++ b) = b.
Proof. induction a as [|x a IH]; cbn; [now destruct b | exact IH]. Qed.

Lemma slice_to_app (a b : string) : slice_to (String.length a) (a ++ b) = a.
Proof. induction a as [|x a IH]; cbn; [now destruct b | now rewrite IH]. Qed.

Lemma slice_to_from (n : nat) (s : string) : slice_to n s ++ slice_from n s = s.
Proof.
  revert s; induction n as [|n IH]; intros [|c s]; cbn; try reflexivity.
  now rewrite IH.
Qed.

Lemma length_slice_from (n : nat) (s : string) :
  String.length (slice_from n s) = String.length s - n.
Proof.
  revert s; induction n as [|n IH]; intros [|c s]; cbn; try reflexivity.
  apply IH.
Qed.

Lemma startswith_app (s p : string) :
  startswith s p = true -> s = p ++ slice_from (String.length p) s.
Proof.
  revert s; induction p as [|x p IH]; intros s H; [reflexivity|].
  destruct s as [|c s]; cbn in H; [discriminate|].
  apply andb_true_iff in H as [E H]. apply Ascii.eqb_eq in E as ->.
  cbn. f_equal. now apply IH.
Qed.

Lemma startswith_app_true (p s : string) : startswith (p ++ s) p = true.
Proof.
  induction p as [|x p IH]; cbn; [reflexivity|].
  now rewrite Ascii.eqb_refl, IH.
Qed.

(** ** Characters and the classifiers *)

Ltac each_char c :=
  destruct c as [[] [] [] [] [] [] [] []].

Lemma p_to_z_not_decimal (c : ascii) :
  p_to_z c = true -> isdecimal_char c = false.
Proof. each_char c; intros H; try reflexivity; vm_compute in H; discriminate. Qed.

Lemma p_to_z_not_special (c : ascii) :
  p_to_z c = true ->
  is_constant (String c "") = false /\
  Ascii.eqb c "(" = false /\ Ascii.eqb c "~" = false /\
  Ascii.eqb c "T" = false /\ Ascii.eqb c "F" = false /\
  Ascii.eqb c "&" = false /\ Ascii.eqb c "|" = false /\
  Ascii.eqb c "+" = false /\ Ascii.eqb c "<" = false /\
  Ascii.eqb c "-" = false.
Proof.
  each_char c; intros H; vm_compute in H; try discriminate;
    vm_compute; repeat split.
Qed.

Lemma is_variable_cons (c : ascii) (tail : string) :
  is_variable (String c tail) = Ok (p_to_z c && all_decimal tail).
Proof.
  unfold is_variable, p_to_z. f_equal. f_equal.
  destruct tail; reflexivity.
Qed.

Lemma is_variable_true (r : string) :
  is_variable r = Ok true <->
  exists c ds, r = String c ds /\ p_to_z c = true /\ all_decimal ds = true.
Proof.
  split.
  - destruct r as [|c ds]; [discriminate|].
    rewrite is_variable_cons. intros [= H].
    apply andb_true_iff in H. exists c, ds. tauto.
  - intros (c & ds & -> & Hc & Hd). now rewrite is_variable_cons, Hc, Hd.
Qed.

Lemma is_constant_true (r : string) :
  is_constant r = true <-> r = "T" \/ r = "F".
Proof.
  unfold is_constant. rewrite orb_true_iff, !String.eqb_eq. tauto.
Qed.

Lemma is_unary_true (r : string) : is_unary r = true <-> r = "~".
Proof. apply String.eqb_eq. Qed.

Lemma is_binary_true (r : string) :
  is_binary r = true <-> r = "&" \/ r = "|" \/ r = "->".
Proof.
  unfold is_binary. rewrite !orb_true_iff, !String.eqb_eq. tauto.
Qed.

Lemma is_candidate_true (r : string) :
  is_candidate r = true <-> In r candidates.
Proof.
  unfold is_candidate. rewrite existsb_exists. split.
  - intros (x & Hx & E). apply String.eqb_eq in E. now subst.
  - intros H. exists r. split; [exact H | apply String.eqb_refl].
Qed.

Lemma is_binary_candidate (r : string) :
  is_binary r = true -> is_candidate r = true.
Proof.
  rewrite is_binary_true. intros [-> | [-> | ->]]; reflexivity.
Qed.

Lemma atom_cases (r : string) :
  atom r <->
  r = "T" \/ r = "F" \/
  exists c ds, r = String c ds /\ p_to_z c = true /\ all_decimal ds = true.
Proof.
  unfold atom, or_else. destruct (is_constant r) eqn:E.
  - apply is_constant_true in E. split; [tauto | reflexivity].
  - rewrite is_variable_true. split; [tauto|].
    intros [-> | [-> | H]]; try discriminate; exact H.
Qed.

Lemma candidate_classes (r : string) :
  is_candidate r = true ->
  is_constant r = false /\ is_variable r = Ok false /\ is_unary r = false.
Proof.
  rewrite is_candidate_true. unfold candidates. simpl.
  intros [<-|[<-|[<-|[<-|[<-|[<-|[<-|H]]]]]]]; try contradiction; repeat split.
Qed.

Lemma atom_classes (r : string) :
  atom r ->
  is_unary r = false /\ is_candidate r = false /\
  (is_variable r = Ok true \/ is_variable r = Ok false /\ is_constant r = true).
Proof.
  rewrite atom_cases. intros [-> | [-> | (c & ds & -> & Hc & Hd)]].
  - repeat split. right. split; reflexivity.
  - repeat split. right. split; reflexivity.
  - rewrite is_variable_cons, Hc, Hd.
    destruct (p_to_z_not_special c Hc) as (_ & _ & H1 & _ & _ & H2 & H3 & H4 & H5 & H6).
    unfold is_unary, is_candidate, candidates. cbn.
    rewrite H1, H2, H3, H4, H5, H6. cbn. repeat split. now left.
Qed.

(** ** The constructor *)

Lemma init_atom (r : string) :
  atom r -> __init__ r None None = Ok (Node r None None).
Proof.
  intros H. destruct (atom_classes r H) as (_ & _ & [E|[E1 E2]]);
    unfold __init__; rewrite ?E, ?E1, ?E2; reflexivity.
Qed.

Lemma init_unary (a : Formula) :
  __init__ "~" (Some a) None = Ok (Node "~" (Some a) None).
Proof. reflexivity. Qed.

Lemma init_binary (r : string) (a b : Formula) :
  is_binary r = true ->
  __init__ r (Some a) (Some b) = Ok (Node r (Some a) (Some b)).
Proof.
  intros H. destruct (candidate_classes r (is_binary_candidate r H)) as (E1 & E2 & E3).
  unfold __init__. rewrite E2, E1, E3, H. reflexivity.
Qed.

Lemma init_inv (r : string) (a b : option Formula) (f : Formula) :
  __init__ r a b = Ok f ->
  f = Node r a b /\
  (atom r /\ a = None /\ b = None \/
   is_unary r = true /\ (exists x, a = Some x) /\ b = None \/
   is_binary r = true /\ (exists x, a = Some x) /\ (exists y, b = Some y)).
Proof.
  unfold __init__. destruct (is_variable r) as [v|e] eqn:Ev; cbn; [|discriminate].
  destruct (v || is_constant r) eqn:Ea.
  - destruct a, b; cbn; try discriminate. intros [= <-]. split; [reflexivity|].
    left. repeat split. unfold atom, or_else. rewrite Ev.
    destruct (is_constant r); [reflexivity|]. now rewrite orb_false_r in Ea; subst.
  - destruct (is_unary r) eqn:Eu.
    + destruct a, b; try discriminate. intros [= <-]. split; [reflexivity|].
      right; left. eauto.
    + destruct (is_binary r) eqn:Eb; cbn; [|discriminate].
      destruct a, b; try discriminate. intros [= <-]. split; [reflexivity|].
      right; right. eauto.
Qed.

Lemma built_grammar (f : Formula) : built f <-> grammar is_binary f.
Proof.
  split.
  - induction 1 as [r a b f _ IHa _ IHb Hf].
    apply init_inv in Hf as [-> [(Hr & -> & ->)|[(Hr & [x ->] & ->)|(Hr & [x ->] & [y ->])]]].
    + now constructor.
    + constructor; [exact Hr | now apply IHa].
    + constructor; [exact Hr | now apply IHa | now apply IHb].
  - induction 1 as [r Hr | r a Hr Ha IHa | r a b Hr Ha IHa Hb IHb].
    + apply (built_init r None None); try discriminate. now apply init_atom.
    + apply is_unary_true in Hr as ->.
      apply (built_init "~" (Some a) None); try discriminate; [|apply init_unary].
      now intros g [= <-].
    + apply (built_init r (Some a) (Some b)); [| |now apply init_binary].
      * now intros g [= <-].
      * now intros g [= <-].
Qed.

Lemma grammar_mono (ops ops' : string -> bool) (f : Formula) :
  (forall r, ops r = true -> ops' r = true) ->
  grammar ops f -> grammar ops' f.
Proof. intros Hs. induction 1; constructor; auto. Qed.

Lemma grammarb_spec (ops : string -> bool) (f : Formula) :
  grammarb ops f = true <-> grammar ops f.
Proof.
  split.
  - revert f. fix IH 1. intros [r [a|] [b|]]; cbn; intros H.
    + apply andb_true_iff in H as [H Hb]. apply andb_true_iff in H as [Hr Ha].
      constructor; [exact Hr | now apply IH | now apply IH].
    + apply andb_true_iff in H as [Hr Ha]. constructor; [exact Hr | now apply IH].
    + discriminate.
    + constructor. unfold atom.
      destruct (or_else (is_constant r) (is_variable r)) as [[]|]; congruence.
  - induction 1 as [r Hr | r a Hr Ha IHa | r a b Hr Ha IHa Hb IHb]; cbn.
    + now rewrite Hr.
    + now rewrite Hr, IHa.
    + now rewrite Hr, IHa, IHb.
Qed.

Lemma built_grammarb (f : Formula) : grammarb is_binary f = true -> built f.
Proof. intros H. apply built_grammar, grammarb_spec, H. Qed.

Lemma grammar_plain (f : Formula) :
  grammar is_candidate f -> uses_extended f = false -> grammar is_binary f.
Proof.
  induction 1 as [r Hr | r a Hr Ha IHa | r a b Hr Ha IHa Hb IHb]; cbn; intros H.
  - now constructor.
  - rewrite orb_false_r in H. constructor; auto.
  - apply orb_false_iff in H as [H1 H2]. apply orb_false_iff in H2 as [H2 H3].
    apply negb_false_iff in H2. constructor; auto.
Qed.

Lemma grammar_binary_plain (f : Formula) :
  grammar is_binary f -> uses_extended f = false.
Proof.
  induction 1 as [r Hr | r a Hr Ha IHa | r a b Hr Ha IHa Hb IHb]; cbn.
  - reflexivity.
  - now rewrite IHa.
  - now rewrite IHa, IHb, Hr.
Qed.

(** ** [__repr__] and [polish] on trees of the grammar *)

Lemma repr_grammar (f : Formula) :
  grammar is_candidate f -> __repr__ f = Ok (to_string f).
Proof.
  induction 1 as [r Hr | r a Hr Ha IHa | r a b Hr Ha IHa Hb IHb]; cbn.
  - destruct (atom_classes r Hr) as (-> & _ & _). unfold atom in Hr.
    now rewrite Hr.
  - now rewrite Hr, IHa.
  - destruct (candidate_classes r Hr) as (E1 & E2 & E3).
    now rewrite E3, E1, IHa, IHb; cbn; rewrite E2.
Qed.

Lemma polish_grammar (f : Formula) :
  grammar is_candidate f -> polish f = Ok (to_polish f).
Proof.
  induction 1 as [r Hr | r a Hr Ha IHa | r a b Hr Ha IHa Hb IHb]; cbn.
  - unfold atom in Hr. now rewrite Hr.
  - apply is_unary_true in Hr as ->. now rewrite IHa.
  - destruct (candidate_classes r Hr) as (E1 & E2 & E3).
    now rewrite E1, E3, IHa, IHb; cbn; rewrite E2.
Qed.

Lemma repr_built (f : Formula) : built f -> str f = Ok (to_string f).
Proof.
  intros H. apply repr_grammar. apply built_grammar in H.
  eapply grammar_mono; [apply is_binary_candidate | exact H].
Qed.

Lemma polish_built (f : Formula) : built f -> polish f = Ok (to_polish f).
Proof.
  intros H. apply polish_grammar. apply built_grammar in H.
  eapply grammar_mono; [apply is_binary_candidate | exact H].
Qed.

(** ** The recursion of [_parse_prefix] *)

Lemma first_candidate_spec (l : list string) (ost chr ost' : string) :
  first_candidate l ost = Some (chr, ost') -> In chr l /\ ost = chr ++ ost'.
Proof.
  induction l as [|i l IH]; cbn; [discriminate|].
  destruct (startswith ost i) eqn:E.
  - intros [= <- <-]. split; [now left | now apply startswith_app].
  - intros H. destruct (IH H). split; [now right | assumption].
Qed.

Lemma body_shrinks (rec : string -> result parsed) (s : string) :
  (forall t, String.length t < String.length s -> shrinks t (rec t)) ->
  shrinks s (parse_prefix_body rec s).
Proof.
  intros Hrec f rest. destruct s as [|sym tail]; [discriminate|].
  assert (Ht : String.length tail < String.length (String sym tail)) by (cbn; lia).
  unfold parse_prefix_body.
  destruct (is_constant (String sym "")).
  { destruct (__init__ _ None None); cbn [bind]; [|discriminate].
    intros [= _ <-]. exact Ht. }
  destruct (Ascii.eqb sym "(").
  { destruct (rec tail) as [[[now1|] ost]|] eqn:E1; cbn [bind]; try discriminate.
    apply (Hrec _ Ht) in E1.
    destruct (String.eqb ost ""); [discriminate|].
    destruct (first_candidate candidates ost) as [[chr ost1]|] eqn:E2; [|discriminate].
    apply first_candidate_spec in E2 as [_ E2].
    assert (L1 : String.length ost1 <= String.length ost)
      by (rewrite E2, length_app_s; lia).
    destruct (negb (is_binary chr)); [discriminate|].
    destruct (rec ost1) as [[[next1|] ost2]|] eqn:E3; cbn [bind]; try discriminate.
    apply Hrec in E3; [|lia].
    destruct ost2 as [|c ost3]; [discriminate|].
    destruct (negb (Ascii.eqb c ")")); [discriminate|].
    destruct (__init__ chr _ _); cbn [bind]; [|discriminate].
    intros [= _ <-]. cbn in *. lia. }
  destruct (Ascii.eqb sym "~").
  { destruct (rec tail) as [[[leaf|] ost]|] eqn:E1; cbn [bind]; try discriminate.
    apply (Hrec _ Ht) in E1.
    destruct (__init__ "~" _ _); cbn [bind]; [|discriminate].
    intros [= _ <-]. lia. }
  destruct (p_to_z sym); [|discriminate].
  cbv zeta. destruct (is_variable _) as [[]|]; cbn [bind]; try discriminate.
  destruct (__init__ _ None None); cbn [bind]; [|discriminate].
  intros [= _ <-]. rewrite length_slice_from. cbn. lia.
Qed.

Lemma fuel_shrinks (n : nat) (s : string) : shrinks s (parse_prefix_fuel n s).
Proof.
  revert s. induction n as [|n IH]; intros s; [discriminate|].
  cbn. apply body_shrinks. intros t _. apply IH.
Qed.

Lemma body_ext (rec1 rec2 : string -> result parsed) (s : string) :
  (forall t, String.length t < String.length s -> rec1 t = rec2 t) ->
  (forall t, shrinks t (rec1 t)) ->
  parse_prefix_body rec1 s = parse_prefix_body rec2 s.
Proof.
  intros Heq Hsh. destruct s as [|sym tail]; [reflexivity|].
  assert (Ht : String.length tail < String.length (String sym tail)) by (cbn; lia).
  unfold parse_prefix_body.
  destruct (is_constant (String sym "")); [reflexivity|].
  destruct (Ascii.eqb sym "(").
  { rewrite <- (Heq _ Ht).
    destruct (rec1 tail) as [[[now1|] ost]|] eqn:E1; cbn [bind]; try reflexivity.
    apply Hsh in E1.
    destruct (String.eqb ost ""); [reflexivity|].
    destruct (first_candidate candidates ost) as [[chr ost1]|] eqn:E2; [|reflexivity].
    apply first_candidate_spec in E2 as [_ E2].
    assert (L1 : String.length ost1 <= String.length ost)
      by (rewrite E2, length_app_s; lia).
    destruct (negb (is_binary chr)); [reflexivity|].
    rewrite <- Heq; [reflexivity | cbn; lia]. }
  destruct (Ascii.eqb sym "~"); [|reflexivity].
  now rewrite <- (Heq _ Ht).
Qed.

Lemma fuel_enough (n m : nat) (s : string) :
  String.length s < n -> String.length s < m ->
  parse_prefix_fuel n s = parse_prefix_fuel m s.
Proof.
  revert m s. induction n as [|n IH]; intros [|m] s Hn Hm; try lia.
  cbn. apply body_ext.
  - intros t Ht. apply IH; lia.
  - intros t. apply fuel_shrinks.
Qed.

(** [_parse_prefix] satisfies the recursive equation of the source. *)
Lemma parse_prefix_unfold (s : string) :
  _parse_prefix s = parse_prefix_body _parse_prefix s.
Proof.
  unfold _parse_prefix at 1. cbn [parse_prefix_fuel]. apply body_ext.
  - intros t Ht. unfold _parse_prefix. apply fuel_enough; lia.
  - intros t. apply fuel_shrinks.
Qed.

Lemma parse_prefix_shrinks (s : string) : shrinks s (_parse_prefix s).
Proof. apply fuel_shrinks. Qed.

(** ** Scanning a variable name *)

Lemma scan_decimal_one (c : ascii) (t : string) :
  scan_decimal (String c t) 1 = S (scan_decimal t 0).
Proof. reflexivity. Qed.

Lemma scan_all_decimal (t : string) :
  all_decimal (slice_to (scan_decimal t 0) t) = true.
Proof.
  induction t as [|c t IH]; cbn; [reflexivity|].
  destruct (isdecimal_char c) eqn:E; cbn; [now rewrite E | reflexivity].
Qed.

Lemma scan_stops (t : string) :
  no_digit_start (slice_from (scan_decimal t 0) t) = true.
Proof.
  induction t as [|c t IH]; cbn; [reflexivity|].
  destruct (isdecimal_char c) eqn:E; cbn; [exact IH | now rewrite E].
Qed.

Lemma scan_app (ds rest : string) :
  all_decimal ds = true -> no_digit_start rest = true ->
  scan_decimal (ds ++ rest) 0 = String.length ds.
Proof.
  intros Hd Hr. induction ds as [|c ds IH]; cbn in *.
  - destruct rest as [|c rest]; cbn in *; [reflexivity|].
    apply negb_true_iff in Hr. now rewrite Hr.
  - apply andb_true_iff in Hd as [Hc Hd]. now rewrite Hc, IH.
Qed.

Lemma scan_app_ge (ds rest : string) :
  all_decimal ds = true -> String.length ds <= scan_decimal (ds ++ rest) 0.
Proof.
  intros Hd. induction ds as [|c ds IH]; cbn in *; [lia|].
  apply andb_true_iff in Hd as [Hc Hd]. rewrite Hc. specialize (IH Hd). lia.
Qed.

(** ** [_parse_prefix] by the first character *)

Lemma parse_prefix_empty : _parse_prefix "" = Ok (None, "End of input").
Proof. reflexivity. Qed.

Lemma parse_prefix_constant (c : ascii) (tail : string) :
  is_constant (String c "") = true ->
  _parse_prefix (String c tail) = Ok (Some (Node (String c "") None None), tail).
Proof.
  intros H. rewrite parse_prefix_unfold. unfold parse_prefix_body. rewrite H.
  rewrite init_atom; [reflexivity|]. unfold atom. now rewrite H.
Qed.

Lemma parse_prefix_letter (c : ascii) (tail : string) :
  p_to_z c = true ->
  _parse_prefix (String c tail) =
  Ok (Some (Node (String c (slice_to (scan_decimal tail 0) tail)) None None),
      slice_from (scan_decimal tail 0) tail).
Proof.
  intros H. rewrite parse_prefix_unfold. unfold parse_prefix_body.
  destruct (p_to_z_not_special c H) as (E1 & E2 & E3 & _).
  rewrite E1, E2, E3, H. cbv zeta. rewrite scan_decimal_one.
  cbn [slice_to slice_from].
  rewrite is_variable_cons, H, scan_all_decimal. cbn [bind andb negb].
  rewrite init_atom; [reflexivity|].
  apply atom_cases. right; right. eexists _, _. split; [reflexivity|].
  split; [exact H | apply scan_all_decimal].
Qed.

Lemma parse_prefix_tilde (tail : string) :
  _parse_prefix (String "~" tail) =
  (r <- _parse_prefix tail ;;
   match r with
   | (None, ost) => Ok (None, ost)
   | (Some leaf, ost) => Ok (Some (Node "~" (Some leaf) None), ost)
   end).
Proof. rewrite parse_prefix_unfold. reflexivity. Qed.

Lemma parse_prefix_open (tail : string) :
  _parse_prefix (String "(" tail) =
  (r1 <- _parse_prefix tail ;;
   match r1 with
   | (None, ost) => Ok (None, ost)
   | (Some now, ost) =>
       if String.eqb ost "" then Ok (None, "Missing operator")
       else
         match first_candidate candidates ost with
         | None => Ok (None, "Invalid operator")
         | Some (chr, ost) =>
             if negb (is_binary chr) then Ok (None, "Invalid operator")
             else
               r2 <- _parse_prefix ost ;;
               match r2 with
               | (None, ost) => Ok (None, ost)
               | (Some next, ost) =>
                   match ost with
                   | "" => Ok (None, "Not closed")
                   | String c ost' =>
                       if negb (Ascii.eqb c ")") then Ok (None, "Not closed")
                       else
                         f <- __init__ chr (Some now) (Some next) ;;
                         Ok (Some f, ost')
                   end
               end
         end
   end).
Proof. rewrite parse_prefix_unfold. reflexivity. Qed.

Lemma parse_prefix_other (c : ascii) (tail : string) :
  is_constant (String c "") = false -> Ascii.eqb c "(" = false ->
  Ascii.eqb c "~" = false -> p_to_z c = false ->
  _parse_prefix (String c tail) = Ok (None, "Invalid pref").
Proof.
  intros E1 E2 E3 E4. rewrite parse_prefix_unfold. unfold parse_prefix_body.
  now rewrite E1, E2, E3, E4.
Qed.

(** ** Soundness and totality of [_parse_prefix] *)

Lemma parse_prefix_sound_fuel (n : nat) :
  forall s, String.length s < n ->
  exists o rest, _parse_prefix s = Ok (o, rest) /\
    forall f, o = Some f -> grammar is_binary f /\ s = to_string f ++ rest.
Proof.
  induction n as [|n IH]; intros s Hn; [lia|].
  destruct s as [|c tail].
  { eexists _, _. split; [apply parse_prefix_empty | discriminate]. }
  cbn in Hn.
  destruct (is_constant (String c "")) eqn:E1.
  { rewrite parse_prefix_constant by exact E1. eexists _, _. split; [reflexivity|].
    intros f [= <-]. split; [|reflexivity]. constructor. unfold atom. now rewrite E1. }
  destruct (Ascii.eqb_spec c "(") as [->|E2].
  { rewrite parse_prefix_open.
    destruct (IH tail ltac:(lia)) as (o1 & ost & -> & H1). cbn [bind].
    destruct o1 as [a|]; [|eexists _, _; split; [reflexivity | discriminate]].
    destruct (H1 a eq_refl) as [Ga Ea].
    destruct (String.eqb ost ""); [eexists _, _; split; [reflexivity | discriminate]|].
    destruct (first_candidate candidates ost) as [[chr ost1]|] eqn:E3;
      [|eexists _, _; split; [reflexivity | discriminate]].
    apply first_candidate_spec in E3 as [_ E3].
    destruct (is_binary chr) eqn:Eb; cbn [negb];
      [|eexists _, _; split; [reflexivity | discriminate]].
    assert (L : String.length ost1 < n).
    { rewrite Ea, E3, !length_app_s in Hn. lia. }
    destruct (IH ost1 L) as (o2 & ost2 & -> & H2). cbn [bind].
    destruct o2 as [b|]; [|eexists _, _; split; [reflexivity | discriminate]].
    destruct (H2 b eq_refl) as [Gb Eb'].
    destruct ost2 as [|c ost3]; [eexists _, _; split; [reflexivity | discriminate]|].
    destruct (Ascii.eqb_spec c ")") as [->|]; cbn [negb];
      [|eexists _, _; split; [reflexivity | discriminate]].
    rewrite init_binary by exact Eb. cbn [bind].
    eexists _, _. split; [reflexivity|]. intros f [= <-].
    split; [now constructor|].
    cbn [to_string]. rewrite Ea, E3, Eb'. cbn. f_equal.
    now rewrite !app_assoc_s. }
  destruct (Ascii.eqb_spec c "~") as [->|E3].
  { rewrite parse_prefix_tilde.
    destruct (IH tail ltac:(lia)) as (o1 & ost & -> & H1). cbn [bind].
    destruct o1 as [a|]; eexists _, _; (split; [reflexivity|]); [|discriminate].
    intros f [= <-]. destruct (H1 a eq_refl) as [Ga Ea].
    split; [now constructor|]. cbn. now rewrite Ea at 1. }
  destruct (p_to_z c) eqn:E4.
  { rewrite parse_prefix_letter by exact E4. eexists _, _. split; [reflexivity|].
    intros f [= <-]. split.
    - constructor. apply atom_cases. right; right. eexists _, _.
      split; [reflexivity|]. split; [exact E4 | apply scan_all_decimal].
    - cbn. now rewrite slice_to_from. }
  rewrite parse_prefix_other; try assumption;
    try (now apply Ascii.eqb_neq).
  eexists _, _. split; [reflexivity | discriminate].
Qed.

Lemma parse_prefix_total (s : string) :
  exists o rest, _parse_prefix s = Ok (o, rest).
Proof.
  destruct (parse_prefix_sound_fuel (S (String.length s)) s) as (o & rest & H & _);
    [lia | eauto].
Qed.

Lemma parse_prefix_sound (s : string) (f : Formula) (rest : string) :
  _parse_prefix s = Ok (Some f, rest) ->
  grammar is_binary f /\ s = to_string f ++ rest.
Proof.
  intros H.
  destruct (parse_prefix_sound_fuel (S (String.length s)) s) as (o & r & E & Hs);
    [lia|].
  rewrite H in E. injection E as <- <-. now apply Hs.
Qed.

(** ** Parsing a printed tree *)

Lemma to_string_head (ops : string -> bool) (f : Formula) (rest : string) :
  grammar ops f -> (forall r, ops r = true -> is_candidate r = true) ->
  exists c t, to_string f ++ rest = String c t /\ isdecimal_char c = false.
Proof.
  intros G Hops. destruct G as [r Hr | r a Hr Ha | r a b Hr Ha Hb]; cbn.
  - apply atom_cases in Hr as [-> | [-> | (c & ds & -> & Hc & _)]];
      cbn; eexists _, _; (split; [reflexivity|]);
      [reflexivity | reflexivity | now apply p_to_z_not_decimal].
  - apply is_unary_true in Hr as ->. eexists _, _. split; reflexivity.
  - eexists _, _. split; reflexivity.
Qed.

Lemma binary_no_digit (r rest : string) :
  is_binary r = true -> no_digit_start (r ++ rest) = true.
Proof. rewrite is_binary_true. intros [-> | [-> | ->]]; reflexivity. Qed.

Lemma binary_first_candidate (r rest : string) :
  is_binary r = true ->
  String.eqb (r ++ rest) "" = false /\
  first_candidate candidates (r ++ rest) = Some (r, rest).
Proof.
  rewrite is_binary_true. intros [-> | [-> | ->]]; split; reflexivity.
Qed.

(** A parenthesized node is parsed back whatever follows it. *)
Lemma parse_prefix_binary (r : string) (a b : Formula) (rest : string) :
  is_binary r = true -> reparses a -> reparses b ->
  _parse_prefix (to_string (Node r (Some a) (Some b)) ++ rest) =
  Ok (Some (Node r (Some a) (Some b)), rest).
Proof.
  intros Hr Ha Hb. cbn [to_string].
  replace (("(" ++ to_string a ++ r ++ to_string b ++ ")") ++ rest)
    with (String "(" (to_string a ++ (r ++ (to_string b ++ String ")" rest)))).
  2:{ cbn. f_equal. now rewrite !app_assoc_s. }
  rewrite parse_prefix_open, Ha by now apply binary_no_digit.
  cbn [bind]. destruct (binary_first_candidate r (to_string b ++ String ")" rest) Hr)
    as [-> ->].
  rewrite Hr, Hb by reflexivity. cbn [bind negb Ascii.eqb].
  now rewrite init_binary by exact Hr.
Qed.

Lemma parse_prefix_to_string (f : Formula) : grammar is_binary f -> reparses f.
Proof.
  induction 1 as [r Hr | r a Hr Ha IHa | r a b Hr Ha IHa Hb IHb]; intros rest Hrest.
  - apply atom_cases in Hr as [-> | [-> | (c & ds & -> & Hc & Hd)]].
    + now apply parse_prefix_constant.
    + now apply parse_prefix_constant.
    + cbn [to_string String.append]. rewrite parse_prefix_letter by exact Hc.
      rewrite scan_app by assumption. now rewrite slice_to_app, slice_from_app.
  - apply is_unary_true in Hr as ->. cbn [to_string String.append].
    now rewrite parse_prefix_tilde, IHa.
  - now apply parse_prefix_binary.
Qed.

(** Whatever follows a printed tree, the parser reads at least that tree. *)
Lemma parse_prefix_extends (g : Formula) :
  grammar is_binary g ->
  forall rest', exists f rest,
    _parse_prefix (to_string g ++ rest') = Ok (Some f, rest) /\
    String.length rest <= String.length rest'.
Proof.
  induction 1 as [r Hr | r a Hr Ha IHa | r a b Hr Ha IHa Hb IHb]; intros rest'.
  - apply atom_cases in Hr as [-> | [-> | (c & ds & -> & Hc & Hd)]].
    + eexists _, _. split; [now apply parse_prefix_constant | lia].
    + eexists _, _. split; [now apply parse_prefix_constant | lia].
    + cbn [to_string String.append]. rewrite parse_prefix_letter by exact Hc.
      eexists _, _. split; [reflexivity|].
      rewrite length_slice_from, length_app_s.
      pose proof (scan_app_ge ds rest' Hd). lia.
  - apply is_unary_true in Hr as ->. cbn [to_string String.append].
    rewrite parse_prefix_tilde.
    destruct (IHa rest') as (f & rest & -> & L). cbn [bind].
    eexists _, _. split; [reflexivity | exact L].
  - eexists _, _. split; [|reflexivity].
    apply parse_prefix_binary; [exact Hr | |]; now apply parse_prefix_to_string.
Qed.

Lemma to_string_nonempty (ops : string -> bool) (f : Formula) :
  grammar ops f -> (forall r, ops r = true -> is_candidate r = true) ->
  to_string f <> "".
Proof.
  intros G Hops E.
  destruct (to_string_head ops f "" G Hops) as (c & t & H & _).
  rewrite app_nil_r_s, E in H. discriminate.
Qed.

(** ** The tokenizer of [parse_polish] *)

Lemma startswith_length (s p : string) :
  startswith s p = true -> String.length p <= String.length s.
Proof.
  intros H. apply startswith_app in H.
  apply (f_equal String.length) in H. rewrite length_app_s in H. lia.
Qed.

Lemma tokenize_body_ext (rec1 rec2 : string -> result (list string)) (s : string) :
  (forall t, String.length t < String.length s -> rec1 t = rec2 t) ->
  tokenize_body rec1 s = tokenize_body rec2 s.
Proof.
  intros Heq. destruct s as [|symb tail]; [reflexivity|].
  assert (Ht : String.length tail < String.length (String symb tail)) by (cbn; lia).
  assert (Hs : forall n, 0 < n ->
            rec1 (slice_from n (String symb tail)) = rec2 (slice_from n (String symb tail))).
  { intros n Hn. apply Heq. rewrite length_slice_from. cbn. lia. }
  unfold tokenize_body.
  repeat match goal with
  | |- (if ?b then _ else _) = _ => destruct b
  end; cbv zeta; rewrite ?(Heq _ Ht), ?Hs by lia; try reflexivity.
  destruct (is_variable _) as [[]|]; cbn [bind negb]; try reflexivity.
  rewrite scan_decimal_one. now rewrite Hs by lia.
Qed.

Lemma tokenize_fuel_enough (n m : nat) (s : string) :
  String.length s < n -> String.length s < m ->
  tokenize_fuel n s = tokenize_fuel m s.
Proof.
  revert m s. induction n as [|n IH]; intros [|m] s Hn Hm; try lia.
  cbn. apply tokenize_body_ext. intros t Ht. apply IH; lia.
Qed.

(** [tokenize] satisfies the equation of the loop. *)
Lemma tokenize_unfold (s : string) : tokenize s = tokenize_body tokenize s.
Proof.
  unfold tokenize at 1. cbn [tokenize_fuel]. apply tokenize_body_ext.
  intros t Ht. unfold tokenize. apply tokenize_fuel_enough; lia.
Qed.

Lemma tokenize_letter (c : ascii) (tail : string) :
  p_to_z c = true ->
  tokenize (String c tail) =
  (res <- tokenize (slice_from (scan_decimal tail 0) tail) ;;
   Ok (String c (slice_to (scan_decimal tail 0) tail) :: res)).
Proof.
  intros H. rewrite tokenize_unfold. unfold tokenize_body.
  destruct (p_to_z_not_special c H) as (_ & _ & E1 & E2 & E3 & E4 & E5 & E6 & E7 & E8).
  rewrite E1, E2, E3, E4, E5, E6, H. cbn [orb].
  cbn [startswith]. rewrite E7, E8. cbn [andb]. cbv zeta.
  rewrite scan_decimal_one. cbn [slice_to slice_from].
  now rewrite is_variable_cons, H, scan_all_decimal.
Qed.

Lemma to_polish_head (f : Formula) (rest : string) :
  grammar is_candidate f -> no_digit_start (to_polish f ++ rest) = true.
Proof.
  intros G. destruct G as [r Hr | r a Hr Ha | r a b Hr Ha Hb]; cbn [to_polish].
  - apply atom_cases in Hr as [-> | [-> | (c & ds & -> & Hc & _)]];
      try reflexivity. cbn. now rewrite p_to_z_not_decimal.
  - apply is_unary_true in Hr as ->. reflexivity.
  - apply is_candidate_true in Hr. cbn in Hr.
    destruct Hr as [<-|[<-|[<-|[<-|[<-|[<-|[<-|H]]]]]]]; try contradiction;
      reflexivity.
Qed.

Lemma tokenize_candidate (r rest : string) :
  is_candidate r = true ->
  tokenize (r ++ rest) = (res <- tokenize rest ;; Ok (r :: res)).
Proof.
  intros Hr. apply is_candidate_true in Hr. cbn in Hr.
  destruct Hr as [<-|[<-|[<-|[<-|[<-|[<-|[<-|H]]]]]]]; try contradiction;
    rewrite tokenize_unfold; reflexivity.
Qed.

Lemma bind_assoc {A B C : Type} (m : result A) (k : A -> result B)
    (h : B -> result C) :
  bind (bind m k) h = bind m (fun a => bind (k a) h).
Proof. now destruct m. Qed.

(** The tokens of a printed tree are the tokens of the tree. *)
Lemma tokenize_to_polish (f : Formula) :
  grammar is_candidate f ->
  forall rest, no_digit_start rest = true ->
    tokenize (to_polish f ++ rest) =
    (res <- tokenize rest ;; Ok ((tokens f ++ res)%list)).
Proof.
  induction 1 as [r Hr | r a Hr Ha IHa | r a b Hr Ha IHa Hb IHb]; intros rest Hrest.
  - apply atom_cases in Hr as [-> | [-> | (c & ds & -> & Hc & Hd)]].
    + rewrite tokenize_unfold. reflexivity.
    + rewrite tokenize_unfold. reflexivity.
    + cbn [to_polish tokens String.append]. rewrite tokenize_letter by exact Hc.
      rewrite scan_app by assumption. now rewrite slice_to_app, slice_from_app.
  - apply is_unary_true in Hr as ->. cbn [to_polish tokens String.append].
    rewrite tokenize_unfold. cbn -[tokenize]. rewrite IHa by exact Hrest.
    now destruct (tokenize rest).
  - cbn [to_polish tokens]. rewrite !app_assoc_s.
    rewrite tokenize_candidate by exact Hr.
    rewrite IHa by now apply to_polish_head.
    rewrite IHb by exact Hrest.
    destruct (tokenize rest); cbn; [|reflexivity].
    now rewrite <- app_assoc.
Qed.

Lemma tokenized_cons (tok t : string) (r : result (list string)) :
  token tok -> tokenized t r ->
  tokenized (tok ++ t) (res <- r ;; Ok (tok :: res)).
Proof.
  intros Ht [(toks & -> & <- & Hall) | ->]; [left | now right].
  exists (tok :: toks). repeat split. now constructor.
Qed.

Lemma tokenize_sound_fuel (n : nat) :
  forall s, String.length s < n -> tokenized s (tokenize s).
Proof.
  induction n as [|n IH]; intros s Hn; [lia|].
  destruct s as [|c tail].
  { left. exists []. repeat split. constructor. }
  cbn in Hn.
  destruct (p_to_z c) eqn:Ep.
  { rewrite tokenize_letter by exact Ep.
    rewrite <- (slice_to_from (scan_decimal tail 0) tail) at 1.
    apply (tokenized_cons (String c _)).
    - left. apply atom_cases. right; right. eexists _, _.
      split; [reflexivity|]. split; [exact Ep | apply scan_all_decimal].
    - apply IH. rewrite length_slice_from. lia. }
  assert (Hcut : forall p, p <> "" -> startswith (String c tail) p = true ->
            token p ->
            tokenized (String c tail)
              (res <- tokenize (slice_from (String.length p) (String c tail)) ;;
               Ok (p :: res))).
  { intros p Hp Hsw Htok. rewrite (startswith_app _ _ Hsw) at 1.
    apply tokenized_cons; [exact Htok|]. apply IH.
    rewrite length_slice_from. destruct p; [congruence | cbn; lia]. }
  rewrite tokenize_unfold. unfold tokenize_body. rewrite Ep.
  destruct (Ascii.eqb_spec c "T") as [->|_].
  { apply (Hcut "T"); [discriminate | reflexivity|]. left. reflexivity. }
  destruct (Ascii.eqb_spec c "F") as [->|_].
  { apply (Hcut "F"); [discriminate | reflexivity|]. left. reflexivity. }
  destruct (Ascii.eqb_spec c "~") as [->|_].
  { apply (Hcut "~"); [discriminate | reflexivity|]. right; now left. }
  destruct (Ascii.eqb_spec c "&") as [->|_].
  { apply (Hcut "&"); [discriminate | reflexivity|]. right; now right. }
  destruct (Ascii.eqb_spec c "|") as [->|_].
  { apply (Hcut "|"); [discriminate | reflexivity|]. right; now right. }
  destruct (Ascii.eqb_spec c "+") as [->|_].
  { apply (Hcut "+"); [discriminate | reflexivity|]. right; now right. }
  cbn [orb].
  destruct (startswith (String c tail) "<->") eqn:E1.
  { apply (Hcut "<->"); [discriminate | exact E1|]. right; now right. }
  destruct (startswith (String c tail) "->") eqn:E2.
  { apply (Hcut "->"); [discriminate | exact E2|]. right; now right. }
  destruct (startswith (String c tail) "-&") eqn:E3.
  { apply (Hcut "-&"); [discriminate | exact E3|]. right; now right. }
  destruct (startswith (String c tail) "-|") eqn:E4.
  { apply (Hcut "-|"); [discriminate | exact E4|]. right; now right. }
  now right.
Qed.

Lemma tokenize_sound (s : string) : tokenized s (tokenize s).
Proof. apply (tokenize_sound_fuel (S (String.length s))). lia. Qed.

Lemma token_nonempty (t : string) : token t -> t <> "".
Proof.
  intros [H | [-> | H]]; try discriminate.
  - apply atom_cases in H as [-> | [-> | (c & ds & -> & _)]]; discriminate.
  - intros ->. discriminate.
Qed.

Lemma join_tokens (f : Formula) :
  grammar is_candidate f -> join (tokens f) = to_polish f.
Proof.
  assert (join_app : forall l1 l2, join (l1 ++ l2) = join l1 ++ join l2).
  { induction l1 as [|x l1 IH]; intros l2; cbn; [reflexivity|].
    now rewrite IH, app_assoc_s. }
  assert (join_cons : forall x l, join (x :: l) = x ++ join l) by reflexivity.
  induction 1 as [r Hr | r a Hr Ha IHa | r a b Hr Ha IHa Hb IHb];
    cbn [tokens to_polish]; rewrite join_cons.
  - apply app_nil_r_s.
  - now rewrite IHa.
  - now rewrite join_app, IHa, IHb.
Qed.

(** ** The stack reduction of [parse_polish] *)

Lemma reduce_app (els1 els2 : list string) (st : list Formula) :
  reduce (els1 ++ els2) st = (st' <- reduce els1 st ;; reduce els2 st').
Proof.
  revert st. induction els1 as [|el els1 IH]; intros st; cbn; [reflexivity|].
  destruct (reduce_step st el); cbn; [apply IH | reflexivity].
Qed.

Lemma reduce_step_atom (st : list Formula) (r : string) :
  atom r -> reduce_step st r = Ok (Node r None None :: st).
Proof.
  intros H. unfold reduce_step. unfold atom in H. rewrite H. cbn [bind].
  now rewrite init_atom.
Qed.

Lemma reduce_step_unary (st : list Formula) :
  reduce_step st "~" =
  match st with
  | leaf :: rest => Ok (Node "~" (Some leaf) None :: rest)
  | [] => Raise (ValueError "Invalid")
  end.
Proof. now destruct st. Qed.

Lemma reduce_step_binary (st : list Formula) (r : string) :
  is_binary r = true ->
  reduce_step st r =
  match st with
  | now :: next :: rest => Ok (Node r (Some now) (Some next) :: rest)
  | _ => Raise (ValueError "Invalid")
  end.
Proof.
  intros H. destruct (candidate_classes r (is_binary_candidate r H)) as (E1 & E2 & E3).
  unfold reduce_step, or_else. rewrite E1, E2, H. cbn [bind].
  destruct st as [|a [|b st]]; try reflexivity.
  now rewrite init_binary.
Qed.

Lemma reduce_step_extended (st : list Formula) (r : string) :
  is_candidate r = true -> is_binary r = false ->
  reduce_step st r = Raise (ValueError "Invalid").
Proof.
  intros H Hb. destruct (candidate_classes r H) as (E1 & E2 & E3).
  unfold reduce_step, or_else. now rewrite E1, E2, Hb, E3.
Qed.

(** Reading the tokens of a tree from last to first pushes that tree. *)
Lemma reduce_tokens (f : Formula) :
  grammar is_binary f ->
  forall st, reduce (rev (tokens f)) st = Ok (f :: st).
Proof.
  induction 1 as [r Hr | r a Hr Ha IHa | r a b Hr Ha IHa Hb IHb]; intros st.
  - cbn. now rewrite reduce_step_atom.
  - apply is_unary_true in Hr as ->. cbn [tokens rev].
    rewrite reduce_app, IHa. cbn [bind reduce]. now rewrite reduce_step_unary.
  - cbn [tokens rev]. rewrite rev_app_distr, !reduce_app, IHb. cbn [bind].
    rewrite IHa. cbn [bind reduce]. now rewrite reduce_step_binary.
Qed.

(** An operator outside [is_binary] stops the reduction. *)
Lemma reduce_tokens_extended (f : Formula) :
  grammar is_candidate f -> uses_extended f = true ->
  forall st, reduce (rev (tokens f)) st = Raise (ValueError "Invalid").
Proof.
  induction 1 as [r Hr | r a Hr Ha IHa | r a b Hr Ha IHa Hb IHb];
    cbn [uses_extended]; intros Hx st.
  - discriminate.
  - rewrite orb_false_r in Hx. cbn [tokens rev].
    now rewrite reduce_app, IHa.
  - cbn [tokens rev]. rewrite rev_app_distr, !reduce_app.
    destruct (uses_extended b) eqn:Xb; [now rewrite IHb|].
    rewrite (reduce_tokens b) by now apply grammar_plain. cbn [bind].
    destruct (uses_extended a) eqn:Xa; [now rewrite IHa|].
    rewrite (reduce_tokens a) by now apply grammar_plain. cbn [bind reduce].
    cbn in Hx. rewrite orb_false_r in Hx. apply negb_true_iff in Hx.
    now rewrite reduce_step_extended.
Qed.

Lemma reduce_step_cases (st : list Formula) (el : string) :
  el <> "" ->
  Forall (grammar is_binary) st ->
  (exists st', reduce_step st el = Ok st' /\
               Forall (grammar is_binary) st' /\ flat st' = el :: flat st) \/
  reduce_step st el = Raise (ValueError "Invalid").
Proof.
  intros Hne Hst. destruct (or_else (is_constant el) (is_variable el)) as [[]|e] eqn:Ea.
  - left. rewrite reduce_step_atom by exact Ea. eexists. split; [reflexivity|].
    split; [|reflexivity]. constructor; [now constructor | exact Hst].
  - destruct (is_binary el) eqn:Eb.
    + rewrite reduce_step_binary by exact Eb.
      destruct Hst as [|a st Ga Hst]; [now right|].
      destruct Hst as [|b st Gb Hst]; [now right|].
      left. eexists. split; [reflexivity|]. split.
      * constructor; [now constructor | exact Hst].
      * unfold flat. cbn. now rewrite <- app_assoc.
    + destruct (is_unary el) eqn:Eu.
      * apply is_unary_true in Eu as ->. rewrite reduce_step_unary.
        destruct Hst as [|a st Ga Hst]; [now right|].
        left. eexists. split; [reflexivity|]. split; [|reflexivity].
        constructor; [now constructor | exact Hst].
      * right. unfold reduce_step. now rewrite Ea, Eb, Eu.
  - destruct el; [congruence|]. unfold or_else in Ea.
    rewrite is_variable_cons in Ea. now destruct (is_constant _).
Qed.

Lemma reduce_cases (els : list string) :
  Forall token els ->
  forall st, Forall (grammar is_binary) st ->
  (exists st', reduce els st = Ok st' /\
               Forall (grammar is_binary) st' /\
               flat st' = (rev els ++ flat st)%list) \/
  reduce els st = Raise (ValueError "Invalid").
Proof.
  induction 1 as [|el els Hel Hels IH]; intros st Hst.
  - left. exists st. now repeat split.
  - cbn [reduce].
    destruct (reduce_step_cases st el (token_nonempty el Hel) Hst)
      as [(st1 & -> & H1 & F1) | ->]; [|now right].
    cbn [bind]. destruct (IH st1 H1) as [(st' & -> & H' & F') | ->]; [|now right].
    left. exists st'. repeat split; [exact H'|].
    rewrite F', F1. cbn [rev]. now rewrite <- app_assoc.
Qed.

(** ** [parse_polish] as a whole *)

Lemma parse_polish_to_polish (f : Formula) :
  grammar is_binary f -> parse_polish (to_polish f) = Ok f.
Proof.
  intros G. unfold parse_polish.
  rewrite <- (app_nil_r_s (to_polish f)).
  rewrite tokenize_to_polish;
    [|eapply grammar_mono; [apply is_binary_candidate | exact G] | reflexivity].
  change (tokenize "") with (@Ok (list string) []). cbn [bind].
  rewrite app_nil_r. now rewrite reduce_tokens.
Qed.

Lemma parse_polish_extended (f : Formula) :
  grammar is_candidate f -> uses_extended f = true ->
  parse_polish (to_polish f) = Raise (ValueError "Invalid").
Proof.
  intros G X. unfold parse_polish.
  rewrite <- (app_nil_r_s (to_polish f)).
  rewrite tokenize_to_polish by (exact G || reflexivity).
  change (tokenize "") with (@Ok (list string) []). cbn [bind].
  rewrite app_nil_r. now rewrite reduce_tokens_extended.
Qed.

Lemma parse_polish_cases (s : string) :
  (exists f, parse_polish s = Ok f /\ grammar is_binary f /\ to_polish f = s) \/
  parse_polish s = Raise (ValueError "Invalid symbol") \/
  parse_polish s = Raise (ValueError "Invalid").
Proof.
  unfold parse_polish.
  destruct (tokenize_sound s) as [(toks & -> & J & T) | ->]; [|now right; left].
  cbn [bind].
  destruct (reduce_cases (rev toks) (Forall_rev T) [] (List.Forall_nil _))
    as [(st & -> & G & F) | ->]; [|now right; right].
  cbn [bind]. rewrite rev_involutive, app_nil_r in F.
  destruct st as [|f [|g st]]; [now right; right | | now right; right].
  left. exists f. split; [reflexivity|].
  apply Forall_inv in G. split; [exact G|].
  unfold flat in F. cbn in F. rewrite app_nil_r in F.
  rewrite <- J, <- F. symmetry. apply join_tokens.
  eapply grammar_mono; [apply is_binary_candidate | exact G].
Qed.

(** ** Characters that occur in no token *)

Lemma all_chars_app (P : ascii -> bool) (a b : string) :
  all_chars P (a ++ b) = all_chars P a && all_chars P b.
Proof.
  induction a as [|c a IH]; cbn; [reflexivity|]. now rewrite IH, andb_assoc.
Qed.

Lemma all_decimal_recognized (ds : string) :
  all_decimal ds = true -> all_chars recognized ds = true.
Proof.
  induction ds as [|c ds IH]; cbn; [reflexivity|].
  intros H. apply andb_true_iff in H as [Hc Hd].
  rewrite IH by exact Hd. unfold recognized. rewrite Hc.
  now rewrite !orb_true_r.
Qed.

Lemma token_recognized (t : string) :
  token t -> all_chars recognized t = true.
Proof.
  intros [H | [-> | H]].
  - apply atom_cases in H as [-> | [-> | (c & ds & -> & Hc & Hd)]];
      try reflexivity.
    cbn. rewrite all_decimal_recognized by exact Hd.
    unfold recognized. rewrite Hc. now rewrite !orb_true_r.
  - reflexivity.
  - apply is_candidate_true in H. cbn in H.
    destruct H as [<-|[<-|[<-|[<-|[<-|[<-|[<-|H]]]]]]]; try contradiction;
      reflexivity.
Qed.

Lemma tokenize_unrecognized (s1 : string) (c : ascii) (s2 : string) :
  recognized c = false ->
  tokenize (s1 ++ String c s2) = Raise (ValueError "Invalid symbol").
Proof.
  intros Hc.
  destruct (tokenize_sound (s1 ++ String c s2)) as [(toks & _ & J & T) | H];
    [|exact H].
  assert (A : all_chars recognized (join toks) = true).
  { clear J. induction T as [|t toks Ht _ IH]; [reflexivity|].
    cbn [join fold_right]. rewrite all_chars_app, token_recognized by exact Ht.
    exact IH. }
  rewrite J, all_chars_app in A. cbn in A. rewrite Hc in A.
  now rewrite andb_false_r in A.
Qed.

(** ** Texts with an extended operator *)

Lemma candidate_first (r rest : string) :
  is_candidate r = true ->
  no_digit_start (r ++ rest) = true /\
  String.eqb (r ++ rest) "" = false /\
  first_candidate candidates (r ++ rest) = Some (r, rest).
Proof.
  intros Hr. apply is_candidate_true in Hr. cbn in Hr.
  destruct Hr as [<-|[<-|[<-|[<-|[<-|[<-|[<-|H]]]]]]]; try contradiction;
    repeat split.
Qed.

Lemma parse_prefix_extended (f : Formula) :
  grammar is_candidate f -> uses_extended f = true ->
  forall rest, _parse_prefix (to_string f ++ rest) = Ok (None, "Invalid operator").
Proof.
  induction 1 as [r Hr | r a Hr Ha IHa | r a b Hr Ha IHa Hb IHb];
    cbn [uses_extended]; intros X rest.
  - discriminate.
  - rewrite orb_false_r in X. apply is_unary_true in Hr as ->.
    cbn [to_string String.append]. now rewrite parse_prefix_tilde, IHa.
  - cbn [to_string].
    replace (("(" ++ to_string a ++ r ++ to_string b ++ ")") ++ rest)
      with (String "(" (to_string a ++ (r ++ (to_string b ++ String ")" rest)))).
    2:{ cbn. f_equal. now rewrite !app_assoc_s. }
    rewrite parse_prefix_open.
    destruct (candidate_first r (to_string b ++ String ")" rest) Hr) as (N & E & C).
    destruct (uses_extended a) eqn:Xa; [now rewrite IHa|].
    rewrite (parse_prefix_to_string a) by (now apply grammar_plain || exact N).
    cbn [bind]. rewrite E, C.
    destruct (is_binary r) eqn:Eb; cbn [negb]; [|reflexivity].
    cbn in X. now rewrite IHb.
Qed.

(** ** [is_formula] and [parse] *)

Lemma is_formula_spec (text : string) :
  exists b, is_formula text = Ok b /\
    (b = true <-> exists f, _parse_prefix text = Ok (Some f, "")).
Proof.
  unfold is_formula. destruct (parse_prefix_total text) as (o & ost & ->).
  cbn [bind]. eexists. split; [reflexivity|].
  destruct o as [f|]; cbn [is_None negb andb].
  - destruct (String.eqb_spec ost "") as [->|N].
    + split; eauto.
    + split; [discriminate|]. intros (g & [= _ E]). contradiction.
  - split; [discriminate|]. intros (g & [= ]).
Qed.

Lemma is_formula_true (text : string) :
  is_formula text = Ok true <-> exists f, _parse_prefix text = Ok (Some f, "").
Proof.
  destruct (is_formula_spec text) as (b & -> & H). rewrite <- H.
  split; congruence.
Qed.

Lemma parse_spec (text : string) (f : Formula) :
  parse text = Ok f <-> _parse_prefix text = Ok (Some f, "").
Proof.
  unfold parse. destruct (is_formula_spec text) as (b & -> & H). cbn [bind].
  destruct b; cbn [negb].
  - destruct (proj1 H eq_refl) as (g & ->). cbn. split; congruence.
  - split; [discriminate|]. intros E.
    assert (false = true) by (apply H; eauto). discriminate.
Qed.

Lemma parse_to_string (f : Formula) : built f -> parse (to_string f) = Ok f.
Proof.
  intros B. apply parse_spec. rewrite <- (app_nil_r_s (to_string f)) at 1.
  apply parse_prefix_to_string; [now apply built_grammar | reflexivity].
Qed.

Lemma to_string_inj (f g : Formula) :
  built f -> built g -> to_string f = to_string g -> f = g.
Proof.
  intros Bf Bg E. apply parse_to_string in Bf, Bg. rewrite E in Bf. congruence.
Qed.

(** ** The substitution methods and the classifiers *)

(** Whenever one of the two substitution methods returns, it returns [None]. *)
Lemma substitute_returns_none (f : Formula) (m : mapping) (r : option Formula) :
  substitute_variables f m = Ok r \/ substitute_operators f m = Ok r ->
  r = None.
Proof.
  unfold substitute_variables, substitute_operators.
  intros [H | H]; [destruct (assert_variables _) | destruct (assert_operators _)];
    cbn [bind] in H; congruence.
Qed.

(** [is_variable] returns on every string but the empty one. *)
Lemma is_variable_nonempty (s : string) :
  s <> "" -> exists b, is_variable s = Ok b.
Proof.
  destruct s as [|c tail]; [congruence|]. intros _.
  rewrite is_variable_cons. eauto.
Qed.

(** * The claims *)

(** C1. Round trip between trees and standard text: for every formula [f]
    built by the constructor, [parse(str(f))] returns [f] itself, which is
    also equal to [f] under [==]; and for every string [s] with
    [is_formula(s)] true, [str(parse(s))] is [s]. *)
Theorem parse_str_roundtrip :
  (forall f, built f ->
     (s <- str f ;; parse s) = Ok f /\
     (s <- str f ;; g <- parse s ;; __eq__ g f) = Ok true) /\
  (forall s, is_formula s = Ok true -> (f <- parse s ;; str f) = Ok s).
Proof.
  split.
  - intros f B. rewrite (repr_built f B). cbn [bind].
    rewrite (parse_to_string f B). cbn [bind]. split; [reflexivity|].
    unfold __eq__. rewrite (repr_built f B). cbn [bind].
    now rewrite String.eqb_refl.
  - intros s H. apply is_formula_true in H as (f & H).
    rewrite (proj2 (parse_spec s f) H). cbn [bind].
    apply parse_prefix_sound in H as [G ->].
    rewrite app_nil_r_s. apply repr_built. now apply built_grammar.
Qed.

Lemma parse_str_roundtrip_witness :
  ((s <- str ex_not_p_or_q ;; parse s) = Ok ex_not_p_or_q /\
   (s <- str ex_not_p_or_q ;; g <- parse s ;; __eq__ g ex_not_p_or_q) = Ok true) /\
  (f <- parse "~(p|q)" ;; str f) = Ok "~(p|q)".
Proof.
  split.
  - apply (proj1 parse_str_roundtrip). apply built_grammarb. reflexivity.
  - apply (proj2 parse_str_roundtrip). reflexivity.
Defined.

(** C2. [substitute_variables] ends after its assertions: with an empty
    substitution map it returns Python's [None] for every formula, not a
    formula equal to its input. *)
Theorem substitute_variables_empty_map :
  (forall f, substitute_variables f [] = Ok None) /\
  (f <- parse "p" ;; substitute_variables f []) = Ok None.
Proof.
  split.
  - intros f. unfold substitute_variables. reflexivity.
  - vm_compute. reflexivity.
Qed.

(** C3. [substitute_operators] ends after its assertions: on
    [((x&y)&~z)] and the map [{'&': ~(~p|~q)}] both assertions hold and the
    call returns Python's [None], not the formula [~(~~(~x|~y)|~~z)]. *)
Theorem substitute_operators_example :
  (f <- parse "((x&y)&~z)" ;; t <- parse "~(~p|~q)" ;;
   substitute_operators f [("&", t)]) = Ok None.
Proof. vm_compute. reflexivity. Qed.

(** C4. Polish round trip: for every formula [f] built by the constructor,
    [parse_polish(f.polish())] returns [f], equal to [f] under [==]; a binary
    operator token takes the first pop as [now] and the second as [next]; and
    [parse_polish("&pq")] is the binary node [&] over [p] and [q]. *)
Theorem parse_polish_roundtrip :
  (forall f, built f ->
     (s <- polish f ;; parse_polish s) = Ok f /\
     (s <- polish f ;; g <- parse_polish s ;; __eq__ g f) = Ok true) /\
  (forall el now next rest, is_binary el = true ->
     reduce_step (now :: next :: rest) el =
     Ok (Node el (Some now) (Some next) :: rest)) /\
  parse_polish "&pq" = Ok ex_p_and_q.
Proof.
  split; [|split].
  - intros f B. rewrite (polish_built f B). cbn [bind].
    rewrite parse_polish_to_polish by now apply built_grammar.
    cbn [bind]. split; [reflexivity|].
    unfold __eq__. rewrite (repr_built f B). cbn [bind].
    now rewrite String.eqb_refl.
  - intros el a b rest H. now rewrite reduce_step_binary.
  - reflexivity.
Qed.

Lemma parse_polish_roundtrip_witness :
  ((s <- polish ex_x_and_y_and_not_z ;; parse_polish s) = Ok ex_x_and_y_and_not_z /\
   (s <- polish ex_x_and_y_and_not_z ;; g <- parse_polish s ;;
    __eq__ g ex_x_and_y_and_not_z) = Ok true) /\
  reduce_step [leaf "p"; leaf "q"] "->" = Ok [binary "->" (leaf "p") (leaf "q")].
Proof.
  split.
  - apply (proj1 parse_polish_roundtrip). apply built_grammarb. reflexivity.
  - apply (proj1 (proj2 parse_polish_roundtrip)). reflexivity.
Defined.

(** C5. [__repr__] is injective on built formulas: two formulas with the
    same text are the same tree, so [==] (equality of the texts) holds exactly
    of structurally equal trees, and formulas equal under [==] have the same
    hash, whatever the string hash is. *)
Theorem repr_injective :
  forall f g, built f -> built g ->
    (str f = str g -> f = g) /\
    (__eq__ f g = Ok true <-> f = g) /\
    (forall hash, __eq__ f g = Ok true -> __hash__ hash f = __hash__ hash g).
Proof.
  intros f g Bf Bg.
  assert (I : str f = str g -> f = g).
  { rewrite (repr_built f Bf), (repr_built g Bg). intros [= E].
    now apply to_string_inj. }
  assert (E : __eq__ f g = Ok true -> str f = str g).
  { unfold __eq__. rewrite (repr_built f Bf), (repr_built g Bg). cbn [bind].
    intros [= H]. apply String.eqb_eq in H. now rewrite H. }
  split; [exact I|]. split.
  - split; [now intros H; apply I, E|].
    intros <-. unfold __eq__. rewrite (repr_built f Bf). cbn [bind].
    now rewrite String.eqb_refl.
  - intros hash H. unfold __hash__. now rewrite (E H).
Qed.

Lemma repr_injective_witness :
  (str ex_p_and_q = str ex_not_p_or_q -> ex_p_and_q = ex_not_p_or_q) /\
  (__eq__ ex_p_and_q ex_not_p_or_q = Ok true <-> ex_p_and_q = ex_not_p_or_q) /\
  (forall hash, __eq__ ex_p_and_q ex_not_p_or_q = Ok true ->
     __hash__ hash ex_p_and_q = __hash__ hash ex_not_p_or_q).
Proof.
  apply repr_injective; apply built_grammarb; reflexivity.
Defined.

(** C6. [is_formula(text)] is true exactly when [_parse_prefix(text)] returns
    a formula and the empty remainder, and it is false otherwise;
    [is_formula("(p&q)")] is true, [is_formula("p&q")] and
    [is_formula("((p&q)")] are false. *)
Theorem is_formula_iff_parse_prefix :
  (forall text,
     (is_formula text = Ok true <->
      exists f, _parse_prefix text = Ok (Some f, "")) /\
     (is_formula text = Ok true \/ is_formula text = Ok false)) /\
  is_formula "(p&q)" = Ok true /\
  is_formula "p&q" = Ok false /\
  is_formula "((p&q)" = Ok false.
Proof.
  split; [|repeat split].
  intros text. split; [apply is_formula_true|].
  destruct (is_formula_spec text) as ([] & -> & _); [now left | now right].
Qed.

Lemma is_formula_iff_parse_prefix_witness :
  is_formula "(p&q)" = Ok true <->
  exists f, _parse_prefix "(p&q)" = Ok (Some f, "").
Proof. apply (proj1 is_formula_iff_parse_prefix "(p&q)"). Defined.

(** C7.  [_parse_prefix] reads the longest prefix that is the text
    of a formula: when some prefix of the input is the text of a built formula
    [g], the call returns a built formula whose text is a prefix of the input
    at least as long; when it returns no formula, no prefix is such a text.  A
    variable name takes every digit that follows it.  [_parse_prefix("q7&p")]
    is the variable [q7] with remainder ["&p"], and [_parse_prefix("")] is no
    formula with the end-of-input diagnostic, the string ['End of input']. *)
Theorem parse_prefix_longest :
  (forall g sg rest', built g -> str g = Ok sg ->
     exists f sf rest,
       _parse_prefix (sg ++ rest') = Ok (Some f, rest) /\
       built f /\ str f = Ok sf /\ sg ++ rest' = sf ++ rest /\
       String.length sg <= String.length sf) /\
  (forall s msg, _parse_prefix s = Ok (None, msg) ->
     forall g sg rest', built g -> str g = Ok sg -> s <> sg ++ rest') /\
  (forall c tail, p_to_z c = true ->
     exists name rest,
       _parse_prefix (String c tail) = Ok (Some (leaf name), rest) /\
       String c tail = name ++ rest /\ no_digit_start rest = true) /\
  _parse_prefix "q7&p" = Ok (Some (leaf "q7"), "&p") /\
  _parse_prefix "" = Ok (None, "End of input").
Proof.
  assert (L : forall g sg rest', built g -> str g = Ok sg ->
     exists f sf rest,
       _parse_prefix (sg ++ rest') = Ok (Some f, rest) /\
       built f /\ str f = Ok sf /\ sg ++ rest' = sf ++ rest /\
       String.length sg <= String.length sf).
  { intros g sg rest' B E. rewrite (repr_built g B) in E. injection E as <-.
    destruct (parse_prefix_extends g (proj1 (built_grammar g) B) rest')
      as (f & rest & P & Len).
    destruct (parse_prefix_sound _ _ _ P) as [G S].
    apply built_grammar in G.
    exists f, (to_string f), rest. repeat split; try assumption.
    - now apply repr_built.
    - apply (f_equal String.length) in S. rewrite !length_app_s in S. lia. }
  split; [exact L|]. split; [|split; [|split; reflexivity]].
  - intros s msg P g sg rest' B E ->.
    destruct (L g sg rest' B E) as (f & sf & rest & P' & _). congruence.
  - intros c tail Hc. rewrite parse_prefix_letter by exact Hc.
    eexists _, _. split; [reflexivity|]. split; [|apply scan_stops].
    cbn. now rewrite slice_to_from.
Qed.

Lemma parse_prefix_longest_witness :
  exists f sf rest,
    _parse_prefix ("q7" ++ "8&p") = Ok (Some f, rest) /\
    built f /\ str f = Ok sf /\ "q7" ++ "8&p" = sf ++ rest /\
    String.length "q7" <= String.length sf.
Proof.
  apply (proj1 parse_prefix_longest (leaf "q7")).
  - apply built_grammarb. reflexivity.
  - reflexivity.
Defined.

(** C8. [is_variable] is not total: on the empty string it raises
    [IndexError] at [string[0]], where its three siblings return [False]. *)
Theorem is_variable_empty_raises :
  is_variable "" = Raise IndexError /\
  is_constant "" = false /\ is_unary "" = false /\ is_binary "" = false.
Proof. repeat split. Qed.

(** C9. [parse_polish] either returns a formula or raises [ValueError], and
    nothing else; it returns [f] exactly when its input is the Polish text of
    the built formula [f].  A character that occurs in no token gives
    [ValueError('Invalid symbol')]; a binary operator met with fewer than two
    nodes on the stack, or a unary one met with none, gives
    [ValueError('Invalid')]; and so does a stack that holds, after the last
    token, any number of nodes other than one. *)
Theorem parse_polish_errors :
  (forall s,
     (exists f, parse_polish s = Ok f) \/
     parse_polish s = Raise (ValueError "Invalid symbol") \/
     parse_polish s = Raise (ValueError "Invalid")) /\
  (forall s f, parse_polish s = Ok f <-> built f /\ polish f = Ok s) /\
  (forall s1 c s2, recognized c = false ->
     parse_polish (s1 ++ String c s2) = Raise (ValueError "Invalid symbol")) /\
  (forall st el, is_binary el = true -> length st < 2 ->
     reduce_step st el = Raise (ValueError "Invalid")) /\
  (forall st el, is_unary el = true -> st = [] ->
     reduce_step st el = Raise (ValueError "Invalid")) /\
  (forall s res st, tokenize s = Ok res -> reduce (rev res) [] = Ok st ->
     length st <> 1 -> parse_polish s = Raise (ValueError "Invalid")).
Proof.
  split; [|split; [|split; [|split; [|split]]]].
  - intros s. destruct (parse_polish_cases s) as [(f & H & _) | H]; eauto.
  - intros s f. split.
    + intros H. destruct (parse_polish_cases s) as [(g & Hg & G & E) | [E | E]];
        rewrite H in *; try discriminate.
      injection Hg as <-. apply built_grammar in G.
      split; [exact G|]. rewrite <- E. now apply polish_built.
    + intros [B E]. rewrite (polish_built f B) in E. injection E as <-.
      apply parse_polish_to_polish. now apply built_grammar.
  - intros s1 c s2 H. unfold parse_polish.
    now rewrite tokenize_unrecognized.
  - intros st el H L. rewrite reduce_step_binary by exact H.
    destruct st as [|a [|b st]]; try reflexivity. cbn in L. lia.
  - intros st el H ->. apply is_unary_true in H as ->. reflexivity.
  - intros s res st T R L. unfold parse_polish. rewrite T. cbn [bind].
    rewrite R. cbn [bind]. destruct st as [|a [|b st]]; try reflexivity.
    now contradiction L.
Qed.

Lemma parse_polish_errors_witness :
  (parse_polish "&pq" = Ok ex_p_and_q) /\
  parse_polish ("&p" ++ String "a" "q") = Raise (ValueError "Invalid symbol") /\
  reduce_step [leaf "p"] "&" = Raise (ValueError "Invalid") /\
  reduce_step [] "~" = Raise (ValueError "Invalid") /\
  parse_polish "pq" = Raise (ValueError "Invalid").
Proof.
  destruct parse_polish_errors as (_ & H2 & H3 & H4 & H5 & H6).
  split; [|split; [|split; [|split]]].
  - apply H2. split; [apply built_grammarb|]; reflexivity.
  - apply H3. reflexivity.
  - apply H4; [reflexivity | cbn; lia].
  - apply H5; reflexivity.
  - apply (H6 "pq" ["p"; "q"] [leaf "p"; leaf "q"]);
      [reflexivity | reflexivity | cbn; lia].
Defined.

(** C10. Both parsers read the extended candidates [<->], [-&], [-|] and [+]
    as operator tokens, and reject every text that contains one: on the
    standard text of a tree over the candidates that uses an extended operator
    [_parse_prefix] returns no formula with the diagnostic
    ['Invalid operator'], and on its Polish text [parse_polish] raises
    [ValueError].  The binary operators of [is_binary], of the constructor and
    of the formulas the two parsers return are exactly [&], [|] and [->], and
    each of the three is printed and parsed back. *)
Theorem extended_operators_rejected :
  (forall r rest, is_candidate r = true ->
     first_candidate candidates (r ++ rest) = Some (r, rest) /\
     tokenize (r ++ rest) = (res <- tokenize rest ;; Ok (r :: res))) /\
  (forall f s rest, grammar is_candidate f -> uses_extended f = true ->
     __repr__ f = Ok s ->
     _parse_prefix (s ++ rest) = Ok (None, "Invalid operator")) /\
  (forall f s, grammar is_candidate f -> uses_extended f = true ->
     polish f = Ok s ->
     parse_polish s = Raise (ValueError "Invalid")) /\
  (forall r, is_binary r = true <-> r = "&" \/ r = "|" \/ r = "->") /\
  (forall r a b,
     (exists f, __init__ r (Some a) (Some b) = Ok f) <-> is_binary r = true) /\
  (forall s f rest, _parse_prefix s = Ok (Some f, rest) ->
     built f /\ uses_extended f = false) /\
  (forall s f, parse_polish s = Ok f -> built f /\ uses_extended f = false) /\
  (forall r a b, is_binary r = true -> built a -> built b ->
     (s <- str (binary r a b) ;; parse s) = Ok (binary r a b) /\
     (s <- polish (binary r a b) ;; parse_polish s) = Ok (binary r a b)).
Proof.
  split; [|split; [|split; [|split; [|split; [|split; [|split]]]]]].
  - intros r rest H. split; [apply (candidate_first r rest H)|].
    now apply tokenize_candidate.
  - intros f s rest G X E. rewrite (repr_grammar f G) in E. injection E as <-.
    now apply parse_prefix_extended.
  - intros f s G X E. rewrite (polish_grammar f G) in E. injection E as <-.
    now apply parse_polish_extended.
  - apply is_binary_true.
  - intros r a b. split.
    + intros (f & H). apply init_inv in H as [_ [(_ & [=] & _) | [(_ & _ & [=]) | (H & _)]]].
      exact H.
    + intros H. eexists. now apply init_binary.
  - intros s f rest H. apply parse_prefix_sound in H as [G _].
    split; [now apply built_grammar | now apply grammar_binary_plain].
  - intros s f H. destruct (parse_polish_cases s) as [(g & Hg & G & _) | [E | E]];
      rewrite H in *; try discriminate.
    injection Hg as <-.
    split; [now apply built_grammar | now apply grammar_binary_plain].
  - intros r a b H Ba Bb.
    assert (G : grammar is_binary (binary r a b)).
    { constructor; [exact H | |]; now apply built_grammar. }
    pose proof (proj2 (built_grammar _) G) as B.
    rewrite (repr_built _ B), (polish_built _ B). cbn [bind].
    split; [now apply parse_to_string | now apply parse_polish_to_polish].
Qed.

Lemma extended_operators_rejected_witness :
  (first_candidate candidates ("-|" ++ "q)") = Some ("-|", "q)") /\
   tokenize ("-|" ++ "q)") = (res <- tokenize "q)" ;; Ok ("-|" :: res))) /\
  _parse_prefix ("(p<->q)" ++ "&r)") = Ok (None, "Invalid operator") /\
  parse_polish "<->pq" = Raise (ValueError "Invalid") /\
  (built ex_p_and_q /\ uses_extended ex_p_and_q = false) /\
  ((s <- str (binary "->" (leaf "p") (leaf "q")) ;; parse s) =
     Ok (binary "->" (leaf "p") (leaf "q")) /\
   (s <- polish (binary "->" (leaf "p") (leaf "q")) ;; parse_polish s) =
     Ok (binary "->" (leaf "p") (leaf "q"))).
Proof.
  destruct extended_operators_rejected as (H1 & H2 & H3 & _ & _ & H6 & _ & H8).
  split; [|split; [|split; [|split]]].
  - apply H1. reflexivity.
  - apply (H2 ex_p_iff_q); [apply grammarb_spec| |]; reflexivity.
  - apply (H3 ex_p_iff_q); [apply grammarb_spec| |]; reflexivity.
  - apply (H6 "(p&q)" ex_p_and_q ""). reflexivity.
  - apply H8; [|apply built_grammarb..]; reflexivity.
Defined.

(** * Further properties of the module *)

(** ** The constructor and the classifiers *)

(** X1. The constructor returns exactly when the operands fit the kind of the
    root, and then the object holds the root and the operands it was given:
    no operand for a constant or a variable, one for [~], two for a binary
    operator.  On the empty root it raises [IndexError] (from [is_variable]);
    on any other misfit an assertion fails. *)
Theorem init_characterized :
  forall r a b,
    (forall f, __init__ r a b = Ok f <->
       f = Node r a b /\
       (atom r /\ a = None /\ b = None \/
        is_unary r = true /\ a <> None /\ b = None \/
        is_binary r = true /\ a <> None /\ b <> None)) /\
    (r = "" -> __init__ r a b = Raise IndexError) /\
    (r <> "" ->
       (exists f, __init__ r a b = Ok f) \/ __init__ r a b = Raise AssertionError).
Proof.
  intros r a b. split; [|split].
  - intros f. split.
    + intros H. apply init_inv in H as [-> H]. split; [reflexivity|].
      destruct H as [H | [(H & [x ->] & ->) | (H & [x ->] & [y ->])]];
        [now left | right; left | right; right]; repeat split; congruence.
    + intros [-> [(H & -> & ->) | [(H & Ha & ->) | (H & Ha & Hb)]]].
      * now apply init_atom.
      * apply is_unary_true in H as ->. destruct a; [reflexivity | congruence].
      * destruct a, b; try congruence. now apply init_binary.
  - intros ->. reflexivity.
  - intros N. destruct r as [|c tail]; [congruence|].
    unfold __init__. rewrite is_variable_cons. cbn [bind].
    destruct a, b; cbn [is_None andb];
      repeat match goal with
      | |- context [if ?x then _ else _] => destruct x
      end; eauto.
Qed.

Lemma init_characterized_witness :
  __init__ "" (Some (leaf "p")) None = Raise IndexError /\
  ((exists f, __init__ "&" (Some (leaf "p")) None = Ok f) \/
   __init__ "&" (Some (leaf "p")) None = Raise AssertionError).
Proof.
  destruct (init_characterized "" (Some (leaf "p")) None) as (_ & H1 & _).
  destruct (init_characterized "&" (Some (leaf "p")) None) as (_ & _ & H2).
  split; [apply H1; reflexivity | apply H2; discriminate].
Defined.

(** X2. The four classifiers are mutually exclusive: a variable name is no
    constant and no operator, a constant is no operator, and [~] is no binary
    operator; on constants and operators [is_variable] returns [False]. *)
Theorem classifiers_exclusive :
  forall s,
    (is_variable s = Ok true ->
       is_constant s = false /\ is_unary s = false /\ is_binary s = false) /\
    (is_constant s = true ->
       is_variable s = Ok false /\ is_unary s = false /\ is_binary s = false) /\
    (is_unary s = true ->
       is_variable s = Ok false /\ is_constant s = false /\ is_binary s = false) /\
    (is_binary s = true ->
       is_variable s = Ok false /\ is_constant s = false /\ is_unary s = false).
Proof.
  intros s. split; [|split; [|split]].
  - intros H. apply is_variable_true in H as (c & ds & -> & Hc & _).
    destruct (p_to_z_not_special c Hc) as (_ & _ & H1 & H2 & H3 & H4 & H5 & _ & _ & H6).
    unfold is_constant, is_unary, is_binary. cbn.
    now rewrite H1, H2, H3, H4, H5, H6.
  - intros H. apply is_constant_true in H as [-> | ->]; repeat split.
  - intros H. apply is_unary_true in H as ->. repeat split.
  - intros H. apply is_binary_true in H as [-> | [-> | ->]]; repeat split.
Qed.

Lemma classifiers_exclusive_witness :
  is_constant "x12" = false /\ is_unary "x12" = false /\ is_binary "x12" = false.
Proof. apply (proj1 (classifiers_exclusive "x12")). reflexivity. Defined.

(** ** [variables] and [operators] *)

Lemma is_variable_decided (x : string) :
  atom x \/ x = "~" \/ is_candidate x = true ->
  is_variable x = Ok true \/ is_variable x = Ok false.
Proof.
  intros [H | [-> | H]].
  - destruct (atom_classes x H) as (_ & _ & [E | [E _]]); auto.
  - now right.
  - right. apply (candidate_classes x H).
Qed.

Lemma tokens_token (f : Formula) (x : string) :
  grammar is_candidate f -> In x (tokens f) -> token x.
Proof.
  induction 1 as [r Hr | r a Hr Ha IHa | r a b Hr Ha IHa Hb IHb]; cbn [tokens].
  - intros [<- | []]. now left.
  - apply is_unary_true in Hr as ->. intros [<- | H]; [right; now left | auto].
  - intros [<- | H]; [right; now right|].
    apply in_app_or in H as [H | H]; auto.
Qed.

Lemma variables_grammar (f : Formula) :
  grammar is_candidate f ->
  exists vs, variables f = Ok vs /\
    forall x, x ∈ vs <-> In x (tokens f) /\ is_variable x = Ok true.
Proof.
  induction 1 as [r Hr | r a Hr Ha IHa | r a b Hr Ha IHa Hb IHb];
    cbn [variables tokens].
  - destruct (atom_classes r Hr) as (_ & _ & [E | [E C]]).
    + assert (C : is_constant r = false).
      { apply is_variable_true in E as (c & ds & -> & Hc & _).
        unfold is_constant. cbn. destruct (p_to_z_not_special c Hc) as (_ & _ & _ & -> & -> & _).
        reflexivity. }
      rewrite C, E. cbn [bind]. eexists. split; [reflexivity|].
      intros x. rewrite elem_of_singleton. cbn. split.
      * intros ->. auto.
      * intros [[<- | []] _]. reflexivity.
    + rewrite C. eexists. split; [reflexivity|].
      intros x. rewrite elem_of_empty. cbn. split; [tauto|].
      intros [[<- | []] V]. congruence.
  - apply is_unary_true in Hr as ->. cbn.
    destruct IHa as (vs & -> & Hvs). exists vs. split; [reflexivity|].
    intros x. rewrite Hvs. split; [tauto|].
    intros [[<- | H] V]; [discriminate | tauto].
  - destruct (candidate_classes r Hr) as (E1 & E2 & E3).
    rewrite E1, E2. cbn [bind]. rewrite E3.
    destruct IHa as (va & -> & Hva). destruct IHb as (vb & -> & Hvb). cbn [bind].
    eexists. split; [reflexivity|].
    intros x. cbn [In]. rewrite elem_of_union, Hva, Hvb, in_app_iff.
    split; [tauto|].
    intros [[<- | H] V]; [congruence | tauto].
Qed.

Lemma operators_grammar (f : Formula) :
  grammar is_candidate f ->
  exists os, operators f = Ok os /\
    forall x, x ∈ os <-> In x (tokens f) /\ is_variable x = Ok false.
Proof.
  induction 1 as [r Hr | r a Hr Ha IHa | r a b Hr Ha IHa Hb IHb];
    cbn [operators tokens].
  - destruct (atom_classes r Hr) as (_ & _ & [E | [E C]]); rewrite E; cbn [bind].
    + eexists. split; [reflexivity|].
      intros x. rewrite elem_of_empty. cbn. split; [tauto|].
      intros [[<- | []] V]. congruence.
    + rewrite C. eexists. split; [reflexivity|].
      intros x. rewrite elem_of_singleton. cbn. split.
      * intros ->. auto.
      * intros [[<- | []] _]. reflexivity.
  - apply is_unary_true in Hr as ->. cbn.
    destruct IHa as (os & -> & Hos). cbn [bind]. eexists. split; [reflexivity|].
    intros x. rewrite elem_of_union, elem_of_singleton, Hos. split.
    + intros [-> | H]; [auto | tauto].
    + intros [[<- | H] V]; [now left | right; tauto].
  - destruct (candidate_classes r Hr) as (E1 & E2 & E3).
    rewrite E2. cbn [bind]. rewrite E1, E3.
    destruct IHa as (oa & -> & Hoa). destruct IHb as (ob & -> & Hob). cbn [bind].
    eexists. split; [reflexivity|].
    intros x. cbn [In].
    rewrite !elem_of_union, elem_of_singleton, Hoa, Hob, in_app_iff.
    split.
    + intros [[-> | H] | H]; [auto | tauto | tauto].
    + intros [[<- | H] V]; [now left; left | tauto].
Qed.

Lemma built_candidate (f : Formula) : built f -> grammar is_candidate f.
Proof.
  intros B. apply built_grammar in B.
  eapply grammar_mono; [apply is_binary_candidate | exact B].
Qed.

(** X3. On a built formula [variables] returns the set of the roots of its
    leaves that are variable names ([tokens f] lists the roots of all nodes of
    [f]); every member is a variable name. *)
Theorem variables_are_variable_leaves :
  forall f, built f ->
    exists vs, variables f = Ok vs /\
      (forall x, x ∈ vs <-> In x (tokens f) /\ is_variable x = Ok true).
Proof. intros f B. apply variables_grammar. now apply built_candidate. Qed.

Lemma variables_are_variable_leaves_witness :
  exists vs, variables ex_x_and_y_and_not_z = Ok vs /\
    (forall x, x ∈ vs <->
       In x (tokens ex_x_and_y_and_not_z) /\ is_variable x = Ok true).
Proof.
  apply variables_are_variable_leaves. apply built_grammarb. reflexivity.
Defined.

Lemma tokens_operator_class (f : Formula) (x : string) :
  grammar is_binary f -> In x (tokens f) -> is_variable x = Ok false ->
  is_constant x = true \/ is_unary x = true \/ is_binary x = true.
Proof.
  intros G I V. revert I.
  induction G as [r Hr | r a Hr Ha IHa | r a b Hr Ha IHa Hb IHb]; cbn [tokens].
  - intros [<- | []]. destruct (atom_classes r Hr) as (_ & _ & [E | [_ C]]);
      [congruence | now left].
  - intros [<- | H]; [right; now left | auto].
  - intros [<- | H]; [right; now right|].
    apply in_app_or in H as [H | H]; auto.
Qed.

(** X4. On a built formula [operators] returns the set of the roots in the
    tree that are not variable names; every member is a constant, [~] or a
    binary operator; the root of the formula is a member unless it is a
    variable, in which case the set is empty; and no symbol is both in
    [operators] and in [variables]. *)
Theorem operators_are_other_roots :
  forall r a b, built (Node r a b) ->
    exists os vs,
      operators (Node r a b) = Ok os /\ variables (Node r a b) = Ok vs /\
      (forall x, x ∈ os <->
         In x (tokens (Node r a b)) /\ is_variable x = Ok false) /\
      (forall x, x ∈ os ->
         is_constant x = true \/ is_unary x = true \/ is_binary x = true) /\
      (is_variable r = Ok false -> r ∈ os) /\
      (is_variable r = Ok true -> os = ∅) /\
      os ## vs.
Proof.
  intros r a b B. pose proof (built_candidate _ B) as G.
  destruct (operators_grammar _ G) as (os & Eo & Ho).
  destruct (variables_grammar _ G) as (vs & Ev & Hv).
  apply built_grammar in B.
  exists os, vs.
  split; [exact Eo|]. split; [exact Ev|]. split; [exact Ho|].
  split; [|split; [|split]].
  - intros x Hx. apply Ho in Hx as [I V].
    now apply (tokens_operator_class (Node r a b)).
  - intros V. apply Ho. split; [|exact V]. destruct a; [|now left].
    destruct b; now left.
  - intros V. inversion B as [r' Hr | r' a' Hr | r' a' b' Hr]; subst.
    + cbn in Eo. rewrite V in Eo. cbn in Eo. congruence.
    + apply is_unary_true in Hr as ->. discriminate.
    + apply is_binary_candidate, candidate_classes in Hr as (_ & Hr & _).
      congruence.
  - intros x Hx Hx'. apply Ho in Hx as [_ V]. apply Hv in Hx' as [_ V'].
    congruence.
Qed.

Lemma operators_are_other_roots_witness :
  exists os vs,
    operators (Node "~" (Some (leaf "T")) None) = Ok os /\
    variables (Node "~" (Some (leaf "T")) None) = Ok vs /\
    (forall x, x ∈ os <->
       In x (tokens (Node "~" (Some (leaf "T")) None)) /\
       is_variable x = Ok false) /\
    (forall x, x ∈ os ->
       is_constant x = true \/ is_unary x = true \/ is_binary x = true) /\
    (is_variable "~" = Ok false -> "~" ∈ os) /\
    (is_variable "~" = Ok true -> os = ∅) /\
    os ## vs.
Proof.
  apply operators_are_other_roots. apply built_grammarb. reflexivity.
Defined.

(** ** Equality *)

(** X5. On built formulas [!=] is the negation of [==]: [f != g] is true
    exactly when the trees differ and false exactly when they are the same. *)
Theorem ne_iff_different :
  forall f g, built f -> built g ->
    (__ne__ f g = Ok true <-> f <> g) /\
    (__ne__ f g = Ok false <-> f = g).
Proof.
  intros f g Bf Bg. unfold __ne__, __eq__.
  rewrite (repr_built f Bf), (repr_built g Bg). cbn [bind].
  destruct (String.eqb_spec (to_string f) (to_string g)) as [E | N]; cbn [negb].
  - apply to_string_inj in E; [|assumption..]. split; split; congruence.
  - assert (f <> g) by congruence. split; split; congruence.
Qed.

Lemma ne_iff_different_witness :
  (__ne__ ex_p_and_q ex_not_p_or_q = Ok true <-> ex_p_and_q <> ex_not_p_or_q) /\
  (__ne__ ex_p_and_q ex_not_p_or_q = Ok false <-> ex_p_and_q = ex_not_p_or_q).
Proof. apply ne_iff_different; apply built_grammarb; reflexivity. Defined.

(** ** What [_parse_prefix] returns *)

(** X6. What [_parse_prefix] returns is sound: whenever it returns a formula
    with a remainder, the formula is a built formula, the input is the text of
    that formula followed by the remainder, and the remainder is strictly
    shorter than the input. *)
Theorem parse_prefix_result_sound :
  forall s f rest, _parse_prefix s = Ok (Some f, rest) ->
    built f /\ (exists pre, str f = Ok pre /\ s = pre ++ rest) /\
    String.length rest < String.length s.
Proof.
  intros s f rest H.
  destruct (parse_prefix_sound s f rest H) as [G E].
  apply built_grammar in G. split; [exact G|]. split.
  - exists (to_string f). split; [now apply repr_built | exact E].
  - now apply (parse_prefix_shrinks s f rest).
Qed.

Lemma parse_prefix_result_sound_witness :
  built (unary "~" (leaf "x1")) /\
  (exists pre, str (unary "~" (leaf "x1")) = Ok pre /\ "~x1&" = pre ++ "&") /\
  String.length "&" < String.length "~x1&".
Proof. apply (parse_prefix_result_sound "~x1&"). reflexivity. Defined.

Lemma parse_prefix_diagnostic_fuel (n : nat) :
  forall s msg, String.length s < n -> _parse_prefix s = Ok (None, msg) ->
    In msg ["End of input"; "Missing operator"; "Invalid operator";
            "Not closed"; "Invalid pref"].
Proof.
  induction n as [|n IH]; intros s msg Hn H; [lia|].
  destruct s as [|c tail].
  { injection H as <-. now left. }
  cbn in Hn.
  destruct (is_constant (String c "")) eqn:E1.
  { now rewrite parse_prefix_constant in H by exact E1. }
  destruct (Ascii.eqb_spec c "(") as [->|E2].
  { rewrite parse_prefix_open in H.
    destruct (_parse_prefix tail) as [[[a|] ost]|e] eqn:P1; cbn [bind] in H;
      [| |discriminate].
    2:{ injection H as <-. apply (IH tail); [lia | exact P1]. }
    destruct (parse_prefix_sound _ _ _ P1) as [_ Ea].
    destruct (String.eqb ost ""); [injection H as <-; cbn; tauto|].
    destruct (first_candidate candidates ost) as [[chr ost1]|] eqn:E3;
      [|injection H as <-; cbn; tauto].
    apply first_candidate_spec in E3 as [_ E3].
    destruct (is_binary chr) eqn:Eb; cbn [negb] in H;
      [|injection H as <-; cbn; tauto].
    assert (L : String.length ost1 < n).
    { rewrite Ea, E3, !length_app_s in Hn. lia. }
    destruct (_parse_prefix ost1) as [[[b|] ost2]|e] eqn:P2; cbn [bind] in H;
      [| |discriminate].
    2:{ injection H as <-. now apply (IH ost1). }
    destruct ost2 as [|c ost3]; [injection H as <-; cbn; tauto|].
    destruct (negb (Ascii.eqb c ")")); [injection H as <-; cbn; tauto|].
    now rewrite init_binary in H by exact Eb. }
  destruct (Ascii.eqb_spec c "~") as [->|E3].
  { rewrite parse_prefix_tilde in H.
    destruct (_parse_prefix tail) as [[[a|] ost]|e] eqn:P1; cbn [bind] in H;
      try discriminate.
    injection H as <-. apply (IH tail); [lia | exact P1]. }
  destruct (p_to_z c) eqn:E4.
  { now rewrite parse_prefix_letter in H by exact E4. }
  rewrite parse_prefix_other in H; try assumption; try (now apply Ascii.eqb_neq).
  injection H as <-. cbn. tauto.
Qed.

(** X7. When [_parse_prefix] returns no formula, its diagnostic is one of
    ['End of input'], ['Missing operator'], ['Invalid operator'],
    ['Not closed'] and ['Invalid pref']: the return of ['Invalid'] after the
    scan of a variable name is never taken. *)
Theorem parse_prefix_diagnostics :
  forall s msg, _parse_prefix s = Ok (None, msg) ->
    In msg ["End of input"; "Missing operator"; "Invalid operator";
            "Not closed"; "Invalid pref"].
Proof.
  intros s msg. apply (parse_prefix_diagnostic_fuel (S (String.length s))). lia.
Qed.

Lemma parse_prefix_diagnostics_witness :
  In "Not closed" ["End of input"; "Missing operator"; "Invalid operator";
                   "Not closed"; "Invalid pref"].
Proof. apply (parse_prefix_diagnostics "(p&q"). reflexivity. Defined.

(** X8. A diagnostic is passed on unchanged: when [_parse_prefix] finds no
    formula at [s], it returns the same diagnostic at [~s], at [(s], and at
    [(] followed by the text of a built formula, a binary operator and [s]. *)
Theorem diagnostics_propagate :
  forall s msg, _parse_prefix s = Ok (None, msg) ->
    _parse_prefix (String "~" s) = Ok (None, msg) /\
    _parse_prefix (String "(" s) = Ok (None, msg) /\
    (forall a sa r, built a -> str a = Ok sa -> is_binary r = true ->
       _parse_prefix ("(" ++ sa ++ r ++ s) = Ok (None, msg)).
Proof.
  intros s msg H. split; [|split].
  - now rewrite parse_prefix_tilde, H.
  - now rewrite parse_prefix_open, H.
  - intros a sa r B E Hr. rewrite (repr_built a B) in E. injection E as <-.
    cbn [String.append]. rewrite parse_prefix_open.
    rewrite (parse_prefix_to_string a) by
      (now apply built_grammar || now apply binary_no_digit).
    cbn [bind]. destruct (binary_first_candidate r s Hr) as [-> ->].
    now rewrite Hr, H.
Qed.

Lemma diagnostics_propagate_witness :
  _parse_prefix (String "~" "a") = Ok (None, "Invalid pref") /\
  _parse_prefix (String "(" "a") = Ok (None, "Invalid pref") /\
  (forall a sa r, built a -> str a = Ok sa -> is_binary r = true ->
     _parse_prefix ("(" ++ sa ++ r ++ "a") = Ok (None, "Invalid pref")).
Proof. apply (diagnostics_propagate "a"). reflexivity. Defined.

(** X9. The diagnostics of a malformed parenthesized text.  After [(] and the
    text of a built formula: ['Missing operator'] when the input ends there;
    ['Invalid operator'] when what follows starts with none of the operator
    candidates.  After [(], a formula, a binary operator and a second
    formula: ['Not closed'] when what follows does not start with [)].  And
    ['Invalid pref'] when the first character is neither [T], [F], [(], [~]
    nor a letter from [p] to [z].  (What follows a formula is taken not to
    start with a digit, which would extend a variable name.) *)
Theorem malformed_diagnostics :
  (forall a sa, built a -> str a = Ok sa ->
     _parse_prefix ("(" ++ sa) = Ok (None, "Missing operator")) /\
  (forall a sa rest, built a -> str a = Ok sa ->
     rest <> "" -> no_digit_start rest = true ->
     first_candidate candidates rest = None ->
     _parse_prefix ("(" ++ sa ++ rest) = Ok (None, "Invalid operator")) /\
  (forall a sa r b sb rest, built a -> str a = Ok sa -> is_binary r = true ->
     built b -> str b = Ok sb ->
     no_digit_start rest = true -> startswith rest ")" = false ->
     _parse_prefix ("(" ++ sa ++ r ++ sb ++ rest) = Ok (None, "Not closed")) /\
  (forall c tail, is_constant (String c "") = false ->
     c <> "("%char -> c <> "~"%char -> p_to_z c = false ->
     _parse_prefix (String c tail) = Ok (None, "Invalid pref")).
Proof.
  split; [|split; [|split]].
  - intros a sa B E. rewrite (repr_built a B) in E. injection E as <-.
    cbn [String.append]. rewrite parse_prefix_open.
    rewrite <- (app_nil_r_s (to_string a)).
    rewrite (parse_prefix_to_string a) by (now apply built_grammar || reflexivity).
    reflexivity.
  - intros a sa rest B E N D C. rewrite (repr_built a B) in E. injection E as <-.
    cbn [String.append]. rewrite parse_prefix_open.
    rewrite (parse_prefix_to_string a) by (now apply built_grammar || exact D).
    cbn [bind]. rewrite C. destruct rest; [congruence | reflexivity].
  - intros a sa r b sb rest Ba Ea Hr Bb Eb D C.
    rewrite (repr_built a Ba) in Ea. injection Ea as <-.
    rewrite (repr_built b Bb) in Eb. injection Eb as <-.
    cbn [String.append]. rewrite parse_prefix_open.
    rewrite (parse_prefix_to_string a) by
      (now apply built_grammar || now apply binary_no_digit).
    cbn [bind]. destruct (binary_first_candidate r (to_string b ++ rest) Hr) as [-> ->].
    rewrite Hr. cbn [negb].
    rewrite (parse_prefix_to_string b) by (now apply built_grammar || exact D).
    cbn [bind]. destruct rest as [|c rest]; [reflexivity|].
    cbn in C. rewrite andb_true_r in C. now rewrite C.
  - intros c tail E1 E2 E3 E4.
    apply parse_prefix_other; try assumption; now apply Ascii.eqb_neq.
Qed.

Lemma malformed_diagnostics_witness :
  _parse_prefix ("(" ++ "~x1") = Ok (None, "Missing operator") /\
  _parse_prefix ("(" ++ "p" ++ "=q)") = Ok (None, "Invalid operator") /\
  _parse_prefix ("(" ++ "p" ++ "->" ++ "q" ++ "&r") = Ok (None, "Not closed") /\
  _parse_prefix (String "1" "0") = Ok (None, "Invalid pref").
Proof.
  destruct malformed_diagnostics as (H1 & H2 & H3 & H4).
  split; [|split; [|split]].
  - apply (H1 (unary "~" (leaf "x1"))); [apply built_grammarb|]; reflexivity.
  - apply (H2 (leaf "p")); [apply built_grammarb| | | |];
      reflexivity || discriminate.
  - apply (H3 (leaf "p") "p" "->" (leaf "q") "q");
      try (apply built_grammarb); reflexivity.
  - apply H4; reflexivity || discriminate.
Defined.

(** ** [parse] and [is_formula] *)

(** X10. [parse] follows [is_formula]: when [is_formula(s)] returns [True],
    [parse(s)] returns the formula [_parse_prefix] finds with the empty
    remainder, a built formula whose text is [s], so its second assertion
    never fails; when [is_formula(s)] returns [False], [parse(s)] raises
    [AssertionError]; and [parse] returns a formula only in the first case. *)
Theorem parse_follows_is_formula :
  forall s,
    (is_formula s = Ok true ->
       exists f, parse s = Ok f /\ _parse_prefix s = Ok (Some f, "") /\
                 built f /\ str f = Ok s) /\
    (is_formula s = Ok false -> parse s = Raise AssertionError) /\
    (forall f, parse s = Ok f -> is_formula s = Ok true).
Proof.
  intros s. split; [|split].
  - intros H. apply is_formula_true in H as (f & P). exists f.
    split; [now apply parse_spec|]. split; [exact P|].
    apply parse_prefix_sound in P as [G ->]. apply built_grammar in G.
    split; [exact G|]. rewrite app_nil_r_s. now apply repr_built.
  - intros H. unfold parse. now rewrite H.
  - intros f H. apply is_formula_true. exists f. now apply parse_spec.
Qed.

Lemma parse_follows_is_formula_witness :
  (exists f, parse "(p|~q)" = Ok f /\ _parse_prefix "(p|~q)" = Ok (Some f, "") /\
             built f /\ str f = Ok "(p|~q)") /\
  parse "(p|~q" = Raise AssertionError.
Proof.
  split.
  - apply (proj1 (parse_follows_is_formula "(p|~q)")). reflexivity.
  - apply (proj1 (proj2 (parse_follows_is_formula "(p|~q"))). reflexivity.
Defined.

(** X11. [is_formula] accepts exactly the texts of built formulas: it is true
    on [s] when [s] is [str(f)] for a built formula [f], and only then. *)
Theorem is_formula_exactly_texts :
  forall s, is_formula s = Ok true <-> exists f, built f /\ str f = Ok s.
Proof.
  intros s. rewrite is_formula_true. split.
  - intros (f & P). exists f. apply parse_prefix_sound in P as [G ->].
    apply built_grammar in G. split; [exact G|].
    rewrite app_nil_r_s. now apply repr_built.
  - intros (f & B & E). exists f. rewrite (repr_built f B) in E.
    injection E as <-. apply parse_spec. now apply parse_to_string.
Qed.

Lemma is_formula_exactly_texts_witness :
  is_formula "(p->~q)" = Ok true <-> exists f, built f /\ str f = Ok "(p->~q)".
Proof. apply (is_formula_exactly_texts "(p->~q)"). Defined.

(** X12. Unique readability: when the text of a built formula followed by
    [r1] is the text of a built formula followed by [r2], neither [r1] nor
    [r2] starting with a digit, the two formulas are the same and so are
    [r1] and [r2]; no text of a formula is a proper prefix of another up to
    the digits of a final variable name. *)
Theorem unique_readability :
  forall f g sf sg r1 r2, built f -> built g ->
    str f = Ok sf -> str g = Ok sg ->
    no_digit_start r1 = true -> no_digit_start r2 = true ->
    sf ++ r1 = sg ++ r2 -> f = g /\ r1 = r2.
Proof.
  intros f g sf sg r1 r2 Bf Bg Ef Eg D1 D2 E.
  rewrite (repr_built f Bf) in Ef. injection Ef as <-.
  rewrite (repr_built g Bg) in Eg. injection Eg as <-.
  pose proof (parse_prefix_to_string f (proj1 (built_grammar f) Bf) r1 D1) as P1.
  pose proof (parse_prefix_to_string g (proj1 (built_grammar g) Bg) r2 D2) as P2.
  rewrite E in P1. rewrite P1 in P2. injection P2 as -> ->. now split.
Qed.

Lemma unique_readability_witness :
  ex_p_and_q = ex_p_and_q /\ "|r)" = "|r)".
Proof.
  apply (unique_readability ex_p_and_q ex_p_and_q "(p&q)" "(p&q)");
    try (apply built_grammarb); reflexivity.
Defined.

(** ** Polish notation *)

(** X13. [polish] is injective on built formulas: two built formulas with the
    same Polish text are the same tree. *)
Theorem polish_injective :
  forall f g, built f -> built g -> polish f = polish g -> f = g.
Proof.
  intros f g Bf Bg E.
  rewrite (polish_built f Bf), (polish_built g Bg) in E. injection E as E.
  pose proof (parse_polish_to_polish f (proj1 (built_grammar f) Bf)) as P1.
  pose proof (parse_polish_to_polish g (proj1 (built_grammar g) Bg)) as P2.
  rewrite E in P1. congruence.
Qed.

Lemma polish_injective_witness : ex_p_and_q = ex_p_and_q.
Proof.
  apply polish_injective; try (apply built_grammarb); reflexivity.
Defined.

(** X14. The two notations convert into each other without loss: when
    [parse_polish(p)] returns [f], printing [f], parsing the text and taking
    [polish] gives [p] back; and when [is_formula(s)] is true, parsing [s],
    taking [polish], reading it with [parse_polish] and printing gives [s]
    back. *)
Theorem notations_convert :
  (forall p f, parse_polish p = Ok f ->
     (s <- str f ;; g <- parse s ;; polish g) = Ok p) /\
  (forall s, is_formula s = Ok true ->
     (f <- parse s ;; p <- polish f ;; g <- parse_polish p ;; str g) = Ok s).
Proof.
  split.
  - intros p f H.
    destruct (parse_polish_cases p) as [(g & Hg & G & E) | [E | E]];
      rewrite H in *; try discriminate.
    injection Hg as <-. apply built_grammar in G.
    rewrite (repr_built f G). cbn [bind]. rewrite (parse_to_string f G).
    cbn [bind]. rewrite <- E. now apply polish_built.
  - intros s H. apply is_formula_true in H as (f & P).
    rewrite (proj2 (parse_spec s f) P). cbn [bind].
    apply parse_prefix_sound in P as [G ->]. rewrite app_nil_r_s.
    pose proof (proj2 (built_grammar f) G) as B.
    rewrite (polish_built f B). cbn [bind].
    rewrite (parse_polish_to_polish f G). cbn [bind]. now apply repr_built.
Qed.

Lemma notations_convert_witness :
  (s <- str ex_x_and_y_and_not_z ;; g <- parse s ;; polish g) = Ok "&&xy~z" /\
  (f <- parse "((x&y)&~z)" ;; p <- polish f ;; g <- parse_polish p ;; str g) =
  Ok "((x&y)&~z)".
Proof.
  split.
  - apply (proj1 notations_convert). reflexivity.
  - apply (proj2 notations_convert). reflexivity.
Defined.

Lemma tokenize_polish_text (f : Formula) :
  grammar is_candidate f -> tokenize (to_polish f) = Ok (tokens f).
Proof.
  intros G. rewrite <- (app_nil_r_s (to_polish f)).
  rewrite tokenize_to_polish by (exact G || reflexivity).
  change (tokenize "") with (@Ok (list string) []). cbn [bind].
  now rewrite app_nil_r.
Qed.

(** X15. Operand counts in [parse_polish]: the Polish texts of two built
    formulas written one after the other leave two nodes on the stack, and a
    binary operator followed by the Polish text of a single built formula
    finds only one; both raise [ValueError('Invalid')]. *)
Theorem parse_polish_operand_count :
  (forall f g pf pg, built f -> built g -> polish f = Ok pf -> polish g = Ok pg ->
     parse_polish (pf ++ pg) = Raise (ValueError "Invalid")) /\
  (forall r f pf, is_binary r = true -> built f -> polish f = Ok pf ->
     parse_polish (r ++ pf) = Raise (ValueError "Invalid")).
Proof.
  split.
  - intros f g pf pg Bf Bg Ef Eg.
    rewrite (polish_built f Bf) in Ef. injection Ef as <-.
    rewrite (polish_built g Bg) in Eg. injection Eg as <-.
    pose proof (built_candidate f Bf) as Gf. pose proof (built_candidate g Bg) as Gg.
    unfold parse_polish. rewrite tokenize_to_polish; [|exact Gf|].
    2:{ rewrite <- (app_nil_r_s (to_polish g)). now apply to_polish_head. }
    rewrite (tokenize_polish_text g Gg). cbn [bind].
    rewrite rev_app_distr, reduce_app.
    rewrite (reduce_tokens g) by now apply built_grammar. cbn [bind].
    rewrite (reduce_tokens f) by now apply built_grammar. reflexivity.
  - intros r f pf Hr Bf Ef.
    rewrite (polish_built f Bf) in Ef. injection Ef as <-.
    pose proof (built_candidate f Bf) as Gf.
    unfold parse_polish. rewrite tokenize_candidate by now apply is_binary_candidate.
    rewrite (tokenize_polish_text f Gf). cbn [bind rev].
    rewrite reduce_app. rewrite (reduce_tokens f) by now apply built_grammar.
    cbn [bind reduce]. now rewrite reduce_step_binary.
Qed.

Lemma parse_polish_operand_count_witness :
  parse_polish ("&pq" ++ "~z") = Raise (ValueError "Invalid") /\
  parse_polish ("->" ++ "~z") = Raise (ValueError "Invalid").
Proof.
  split.
  - apply (proj1 parse_polish_operand_count ex_p_and_q (unary "~" (leaf "z")));
      try (apply built_grammarb); reflexivity.
  - apply (proj2 parse_polish_operand_count "->" (unary "~" (leaf "z")));
      try (apply built_grammarb); reflexivity.
Defined.

(** X16. The first loop of [parse_polish] loses nothing: when it ends, the
    tokens it appended, joined in order, are the input, and each is a
    constant, a variable name, [~] or one of the seven operator candidates;
    when it raises, it raises [ValueError('Invalid symbol')], never
    [ValueError('Invalid variable')]. *)
Theorem tokenize_lossless :
  forall s,
    (exists res, tokenize s = Ok res /\ join res = s /\
       Forall (fun t => atom t \/ t = "~" \/ In t candidates) res) \/
    tokenize s = Raise (ValueError "Invalid symbol").
Proof.
  intros s. destruct (tokenize_sound s) as [(res & E & J & T) | E];
    [left | now right].
  exists res. split; [exact E|]. split; [exact J|].
  eapply List.Forall_impl; [|exact T].
  intros t [H | [H | H]]; auto. right; right. now apply is_candidate_true.
Qed.

(** ** The checks of the substitution methods *)

Lemma assert_variables_app (ks1 ks2 : list string) :
  Forall (fun k => is_variable k = Ok true) ks1 ->
  assert_variables (ks1 ++ ks2) = assert_variables ks2.
Proof.
  induction 1 as [|k ks1 Hk _ IH]; [reflexivity|].
  cbn. now rewrite Hk.
Qed.

Lemma assert_variables_ok (keys : list string) :
  assert_variables keys = Ok tt <->
  Forall (fun k => is_variable k = Ok true) keys.
Proof.
  induction keys as [|k keys IH]; cbn.
  - split; [constructor | reflexivity].
  - destruct (is_variable k) as [[]|e] eqn:E; cbn [bind].
    + rewrite IH. split; [now constructor | now inversion 1].
    + split; [discriminate | inversion 1; congruence].
    + split; [discriminate | inversion 1; congruence].
Qed.

(** X17. [substitute_variables] checks its keys in order and returns [None]
    exactly when every key is a variable name.  At the first key that is not
    one it raises: [IndexError] when that key is the empty string,
    [AssertionError] otherwise.  The formula it is called on plays no part. *)
Theorem substitute_variables_checks_keys :
  forall self m,
    (substitute_variables self m = Ok None <->
     Forall (fun k => is_variable k = Ok true) (map fst m)) /\
    (forall m1 k t m2, m = (m1 ++ (k, t) :: m2)%list ->
       Forall (fun k => is_variable k = Ok true) (map fst m1) ->
       (k = "" -> substitute_variables self m = Raise IndexError) /\
       (is_variable k = Ok false ->
        substitute_variables self m = Raise AssertionError)).
Proof.
  intros self m. unfold substitute_variables. split.
  - rewrite <- assert_variables_ok.
    destruct (assert_variables (map fst m)) as [[]|e]; cbn [bind];
      split; congruence.
  - intros m1 k t m2 -> H1. rewrite map_app, assert_variables_app by exact H1.
    cbn. split.
    + intros ->. reflexivity.
    + intros ->. reflexivity.
Qed.

Lemma substitute_variables_checks_keys_witness :
  (substitute_variables ex_p_and_q [("p", leaf "q"); ("", leaf "r")] =
     Raise IndexError) /\
  (substitute_variables ex_p_and_q [("p", leaf "q"); ("T", leaf "r")] =
     Raise AssertionError).
Proof.
  split.
  - apply (proj2 (substitute_variables_checks_keys ex_p_and_q _)
             [("p", leaf "q")] "" (leaf "r") []);
      [reflexivity | repeat constructor | reflexivity].
  - apply (proj2 (substitute_variables_checks_keys ex_p_and_q _)
             [("p", leaf "q")] "T" (leaf "r") []);
      [reflexivity | repeat constructor | reflexivity].
Defined.

(** X18. [substitute_operators], on a map whose templates are built formulas,
    returns [None] exactly when every key is a constant, [~] or a binary
    operator and the variables of every template are among [p] and [q];
    otherwise an assertion fails.  It raises nothing else. *)
Theorem substitute_operators_checks_map :
  forall self m, Forall (fun kt => built (snd kt)) m ->
    (substitute_operators self m = Ok None <->
     Forall (fun kt =>
        is_constant (fst kt) || is_unary (fst kt) || is_binary (fst kt) = true /\
        exists vs, variables (snd kt) = Ok vs /\ vs ⊆ {[ "p"; "q" ]}) m) /\
    (substitute_operators self m = Ok None \/
     substitute_operators self m = Raise AssertionError).
Proof.
  intros self m B. unfold substitute_operators.
  assert (A : (assert_operators m = Ok tt <->
     Forall (fun kt =>
        is_constant (fst kt) || is_unary (fst kt) || is_binary (fst kt) = true /\
        exists vs, variables (snd kt) = Ok vs /\ vs ⊆ {[ "p"; "q" ]}) m) /\
     (assert_operators m = Ok tt \/ assert_operators m = Raise AssertionError)).
  { induction B as [|[k t] m Bt _ IH]; cbn [assert_operators].
    - split; [split; [constructor | reflexivity] | now left].
    - cbn [snd] in Bt.
      destruct (variables_grammar t (built_candidate t Bt)) as (vs & Ev & _).
      destruct (is_constant k || is_unary k || is_binary k) eqn:Ek.
      + rewrite Ev. cbn [bind]. destruct (bool_decide (vs ⊆ {[ "p"; "q" ]})) eqn:Es.
        * apply bool_decide_eq_true in Es. destruct IH as [IH1 IH2].
          split; [|exact IH2]. rewrite IH1. split.
          -- intros H. constructor; [|exact H]. cbn. split; [exact Ek | eauto].
          -- now inversion 1.
        * apply bool_decide_eq_false in Es. split; [|now right].
          split; [discriminate|]. inversion 1 as [|? ? [_ (vs' & Ev' & S)]]; subst.
          cbn [snd] in Ev'. congruence.
      + split; [|now right]. split; [discriminate|].
        inversion 1 as [|? ? [Ek' _]]; subst. cbn [fst] in Ek'. congruence. }
  destruct A as [A1 A2]. split.
  - rewrite <- A1. destruct (assert_operators m) as [[]|e]; cbn [bind];
      split; congruence.
  - destruct A2 as [-> | ->]; [now left | now right].
Qed.

Lemma substitute_operators_checks_map_witness :
  substitute_operators ex_p_and_q [("&", ex_not_p_or_q); ("x", leaf "p")] = Ok None \/
  substitute_operators ex_p_and_q [("&", ex_not_p_or_q); ("x", leaf "p")] =
    Raise AssertionError.
Proof.
  apply substitute_operators_checks_map.
  repeat constructor; apply built_grammarb; reflexivity.
Defined.
